(** * Ingestion service: a shallow embedding and its checked properties

    The development follows [services/ingestion]: the data model of
    [models.py], the configuration of [config.py], the metrics sink of
    [metrics.py], the in-memory store of [db.py] and the orchestration
    engine of [ingest_service.py].

    Conventions of the embedding.
    - A [datetime] is its number of microseconds since the epoch, a
      [timedelta] a number of microseconds, both in [Z]; the calendar's range
      limits are not represented.
    - A Python [float] is the rational it denotes ([Q]); rounding, infinities
      and NaN are not represented.  Python [int] is [Z].
    - A [str] is a [string] of bytes; [encode()] is the identity on it and
      [lower()] maps the ASCII capitals, the only cased bytes.
    - Awaited calls run to completion one after the other: one chain task is
      modelled, the scheduler is not. *)

From Stdlib Require Import ZArith QArith Qabs Qround Qminmax Qpower Lia Lqa List Ascii String.
From stdpp Require Import gmap strings list fin_maps.
Import ListNotations.

Local Open Scope Z_scope.

(** ** Strings *)

Module Str.

Definition lower_ascii (c : ascii) : ascii :=
  let n := N_of_ascii c in
  if ((65 <=? n) && (n <=? 90))%N then ascii_of_N (n + 32) else c.

(** [str.lower()] *)
Fixpoint lower (s : string) : string :=
  match s with
  | EmptyString => EmptyString
  | String c r => String (lower_ascii c) (lower r)
  end.

(** [str.encode()]: the bytes of the string, as numbers below 256 *)
Fixpoint encode (s : string) : list Z :=
  match s with
  | EmptyString => []
  | String c r => Z.of_N (N_of_ascii c) :: encode r
  end.

Definition hex_digit (n : Z) : ascii :=
  if n <? 10 then ascii_of_N (Z.to_N (48 + n)) else ascii_of_N (Z.to_N (87 + n)).

End Str.

(** ** SHA-256, as [hashlib.sha256] computes it (FIPS 180-4) *)

Module Sha256.

Definition w32 (x : Z) : Z := x mod 4294967296.
Definition add32 (x y : Z) : Z := w32 (x + y).
Definition rotr (n x : Z) : Z := w32 (Z.lor (Z.shiftr x n) (Z.shiftl x (32 - n))).
Definition shr (n x : Z) : Z := Z.shiftr x n.

Definition ch (x y z : Z) : Z := Z.lxor (Z.land x y) (Z.land (w32 (Z.lnot x)) z).
Definition maj (x y z : Z) : Z :=
  Z.lxor (Z.lxor (Z.land x y) (Z.land x z)) (Z.land y z).
Definition bsig0 (x : Z) : Z := Z.lxor (Z.lxor (rotr 2 x) (rotr 13 x)) (rotr 22 x).
Definition bsig1 (x : Z) : Z := Z.lxor (Z.lxor (rotr 6 x) (rotr 11 x)) (rotr 25 x).
Definition ssig0 (x : Z) : Z := Z.lxor (Z.lxor (rotr 7 x) (rotr 18 x)) (shr 3 x).
Definition ssig1 (x : Z) : Z := Z.lxor (Z.lxor (rotr 17 x) (rotr 19 x)) (shr 10 x).

(** The round constants and the initial hash value, in decimal. *)
Definition K : list Z :=
  [
    1116352408; 1899447441; 3049323471; 3921009573;
    961987163; 1508970993; 2453635748; 2870763221;
    3624381080; 310598401; 607225278; 1426881987;
    1925078388; 2162078206; 2614888103; 3248222580;
    3835390401; 4022224774; 264347078; 604807628;
    770255983; 1249150122; 1555081692; 1996064986;
    2554220882; 2821834349; 2952996808; 3210313671;
    3336571891; 3584528711; 113926993; 338241895;
    666307205; 773529912; 1294757372; 1396182291;
    1695183700; 1986661051; 2177026350; 2456956037;
    2730485921; 2820302411; 3259730800; 3345764771;
    3516065817; 3600352804; 4094571909; 275423344;
    430227734; 506948616; 659060556; 883997877;
    958139571; 1322822218; 1537002063; 1747873779;
    1955562222; 2024104815; 2227730452; 2361852424;
    2428436474; 2756734187; 3204031479; 3329325298
  ].

Definition H0 : list Z :=
  [
    1779033703; 3144134277; 1013904242; 2773480762;
    1359893119; 2600822924; 528734635; 1541459225
  ].

(** Padding: the byte 0x80, zero bytes up to 56 modulo 64, then the length
    in bits on eight bytes, most significant first. *)
Definition be_bytes (n : nat) (x : Z) : list Z :=
  List.map (fun i => (Z.shiftr x (8 * Z.of_nat i)) mod 256) (rev (seq 0 n)).

Definition pad (msg : list Z) : list Z :=
  let l := Z.of_nat (length msg) in
  let k := Z.to_nat ((55 - l) mod 64) in
  msg ++ [128] ++ repeat 0 k ++ be_bytes 8 (8 * l).

Fixpoint be_words (fuel : nat) (bs : list Z) : list Z :=
  match fuel, bs with
  | S f, b0 :: b1 :: b2 :: b3 :: r =>
      (b0 * 16777216 + b1 * 65536 + b2 * 256 + b3) :: be_words f r
  | _, _ => []
  end.

(** The message schedule, newest word first while it is built. *)
Fixpoint schedule (n : nat) (rw : list Z) : list Z :=
  match n with
  | O => rw
  | S n' =>
      let w := add32 (add32 (ssig1 (nth 1 rw 0)) (nth 6 rw 0))
                     (add32 (ssig0 (nth 14 rw 0)) (nth 15 rw 0)) in
      schedule n' (w :: rw)
  end.

Record regs := Regs { ra : Z; rb : Z; rc : Z; rd : Z; re : Z; rf : Z; rg : Z; rh : Z }.

Definition round (s : regs) (kw : Z * Z) : regs :=
  let t1 := add32 (add32 (add32 (rh s) (bsig1 (re s)))
                         (add32 (ch (re s) (rf s) (rg s)) (fst kw))) (snd kw) in
  let t2 := add32 (bsig0 (ra s)) (maj (ra s) (rb s) (rc s)) in
  Regs (add32 t1 t2) (ra s) (rb s) (rc s) (add32 (rd s) t1) (re s) (rf s) (rg s).

Definition of_list (h : list Z) : regs :=
  Regs (nth 0 h 0) (nth 1 h 0) (nth 2 h 0) (nth 3 h 0)
       (nth 4 h 0) (nth 5 h 0) (nth 6 h 0) (nth 7 h 0).

Definition to_list (s : regs) : list Z :=
  [ra s; rb s; rc s; rd s; re s; rf s; rg s; rh s].

Definition compress (h : list Z) (block : list Z) : list Z :=
  let w := rev (schedule 48 (rev block)) in
  let s := fold_left round (combine K w) (of_list h) in
  List.map (fun p => add32 (fst p) (snd p)) (combine h (to_list s)).

Fixpoint blocks (fuel : nat) (h : list Z) (ws : list Z) : list Z :=
  match fuel with
  | O => h
  | S f =>
      match ws with
      | [] => h
      | _ => blocks f (compress h (firstn 16 ws)) (skipn 16 ws)
      end
  end.

Definition digest (msg : list Z) : list Z :=
  let p := pad msg in
  let ws := be_words (length p) p in
  blocks (length ws) H0 ws.

Fixpoint hex_of_bytes (bs : list Z) : string :=
  match bs with
  | [] => EmptyString
  | b :: r => String (Str.hex_digit (b / 16)) (String (Str.hex_digit (b mod 16)) (hex_of_bytes r))
  end.

(** [hashlib.sha256(msg).hexdigest()] *)
Definition hexdigest (msg : list Z) : string :=
  hex_of_bytes (concat (List.map (be_bytes 4) (digest msg))).

End Sha256.

(** ** Numbers and time *)

(** [int(x)] on a float: truncation toward zero. *)
Definition py_int (x : Q) : Z := Z.quot (Qnum x) (Z.pos (Qden x)).

(** [timedelta.total_seconds()]: microseconds to seconds. *)
Definition total_seconds (td : Z) : Q := td # 1000000.

(** [timedelta(seconds=n)] and [timedelta(hours=n)], in microseconds. *)
Definition timedelta_seconds (n : Z) : Z := n * 1000000.
Definition timedelta_hours (n : Z) : Z := n * 3600000000.

(** ** models.py *)

Record Provenance := mkProvenance {
  provider : string;
  method : string;
  request_id : string
}.

Record TransferEvent := mkTransferEvent {
  ts : Z;
  tx_hash : string;
  from_addr : string;
  to_addr : string;
  chain : string;
  token : string;
  amount : Q;
  usd_value : Q;
  direction : option string;
  venue_hint : option string;
  is_cex : bool;
  provenance : option Provenance;
  raw : option (list (string * string))
}.

Record BalanceUpdate := mkBalanceUpdate {
  bu_ts : Z;
  address : string;
  bu_chain : string;
  bu_token : string;
  bu_amount : Q;
  bu_usd_value : Q;
  bu_provenance : option Provenance;
  bu_raw : option (list (string * string))
}.

(** ** config.py *)

Record Config := mkConfig {
  database_url : string;
  chains : list string;
  primary_provider : string;
  alchemy_api_key : option string;
  moralis_api_key : option string;
  stream_lag_seconds : Z;
  backfill_window_hours : Z;
  retry_max_attempts : Z;
  retry_base_seconds : Q;
  retry_max_seconds : Q;
  rate_limit_per_sec : Z
}.

Definition backfill_window (cfg : Config) : Z :=
  timedelta_hours (backfill_window_hours cfg).

(** ** Results of calls that may raise *)

Inductive exn :=
| StoreError (msg : string)
| ProviderError (msg : string)
| ZeroDivisionError
| RecursionError
| RuntimeError (msg : string)
| LoopFuel.

Inductive Res (A : Type) :=
| Ok (a : A)
| Raise (e : exn).
Arguments Ok {A} a.
Arguments Raise {A} e.

(** ** What the engine does to its collaborators, in order *)

Inductive Effect :=
| CallLatestTs (c : string)
| CallInsertTransfer (e : TransferEvent)
| CallUpsertBalance (b : BalanceUpdate)
| CallStreamTransfers (idx : nat) (c : string)
| CallRestBackfill (idx : nat) (c : string) (start horizon : Z)
| Sleep (seconds : Q)
| MetricInc (name : string) (value : Z) (c : string)
| MetricObserve (name : string) (value : Q) (c : string)
| Log (level msg : string).

Definition upserts_of (tr : list Effect) : list BalanceUpdate :=
  flat_map (fun ev => match ev with CallUpsertBalance b => [b] | _ => [] end) tr.

Definition stream_opens_of (tr : list Effect) : list nat :=
  flat_map (fun ev => match ev with CallStreamTransfers i _ => [i] | _ => [] end) tr.

(** ** db.py *)

(** The [DB] protocol.  A store is a state [D]; a call returns or raises and
    leaves the store in a new state.  ([upsert_entity] is part of the
    protocol but the engine never calls it; it is kept on [InMemoryDB].) *)
Class DB (D : Type) := {
  latest_transfer_ts : string -> D -> Res (option Z) * D;
  insert_transfer : TransferEvent -> D -> Res bool * D;
  upsert_balance : BalanceUpdate -> D -> Res unit * D
}.

Module InMemoryDB.

(** The dictionary [upsert_entity] stores for an entity. *)
Record entity := mkEntity {
  en_address : string;
  en_chain : string;
  en_label : option string;
  en_entity_type : option string;
  en_is_cex : bool;
  en_meta : list (string * string)
}.

Record t := mk {
  transfers : gmap string TransferEvent;
  balances : gmap string BalanceUpdate;
  entities : gmap string entity;
  _latest_ts : gmap string Z
}.

Definition init : t := mk ∅ ∅ ∅ ∅.

Definition _tkey (e : TransferEvent) : string :=
  Sha256.hexdigest
    (Str.encode (chain e) ++ Str.encode "|" ++ Str.encode (tx_hash e) ++ Str.encode "|"
     ++ Str.encode (from_addr e) ++ Str.encode "|" ++ Str.encode (to_addr e)).

Definition _bkey (b : BalanceUpdate) : string :=
  Str.lower (bu_chain b +:+ ":" +:+ address b +:+ ":" +:+ bu_token b).

Definition latest_transfer_ts (c : string) (d : t) : Res (option Z) * t :=
  (Ok (_latest_ts d !! c), d).

Definition upsert_entity (addr c : string) (label entity_type : option string)
    (cex : bool) (meta : list (string * string)) (d : t) : Res unit * t :=
  (Ok tt, mk (transfers d) (balances d)
             (<[Str.lower (c +:+ ":" +:+ addr) :=
                  mkEntity addr c label entity_type cex meta]> (entities d))
             (_latest_ts d)).

Definition insert_transfer (e : TransferEvent) (d : t) : Res bool * t :=
  let key := _tkey e in
  match transfers d !! key with
  | Some _ => (Ok false, d)
  | None =>
      let tr := <[key := e]> (transfers d) in
      let lt :=
        match _latest_ts d !! chain e with
        | None => <[chain e := ts e]> (_latest_ts d)
        | Some prev => if prev <? ts e then <[chain e := ts e]> (_latest_ts d) else _latest_ts d
        end in
      (Ok true, mk tr (balances d) (entities d) lt)
  end.

Definition upsert_balance (b : BalanceUpdate) (d : t) : Res unit * t :=
  (Ok tt, mk (transfers d) (<[_bkey b := b]> (balances d)) (entities d) (_latest_ts d)).

End InMemoryDB.

#[export] Instance InMemoryDB_DB : DB InMemoryDB.t := {
  latest_transfer_ts := InMemoryDB.latest_transfer_ts;
  insert_transfer := InMemoryDB.insert_transfer;
  upsert_balance := InMemoryDB.upsert_balance
}.

(** ** providers/base.py *)

(** The two provider objects of a service, [self.providers], as one state
    [P] (the tests install the same object twice); [idx] says which of the
    two is called.  A live sequence is the list of events it delivers. *)
Class Providers (P : Type) := {
  stream_transfers : nat -> string -> P -> Res (list TransferEvent) * P;
  rest_backfill : nat -> string -> Z -> Z -> P -> Res (list TransferEvent) * P
}.

(** ** The running service and its surroundings *)

(** The fields of [IngestionService] ([db], [providers], the counters of its
    [Metrics], [_primary_idx], [_seen_cache], [_rate_tokens],
    [_last_refill]) together with what the engine reads from outside: the
    wall clock, the samples [random.random()] will return, and the record of
    the calls made so far. *)
Record World (D P : Type) := mkWorld {
  db : D;
  providers : P;
  _counters : gmap string Z;
  _primary_idx : nat;
  _seen_cache : gset string;
  _rate_tokens : Z;
  _last_refill : Z;
  clock : Z;
  rand_src : nat -> Q;
  rand_pos : nat;
  trace : list Effect
}.
Arguments mkWorld {D P}.
Arguments db {D P}.
Arguments providers {D P}.
Arguments _counters {D P}.
Arguments _primary_idx {D P}.
Arguments _seen_cache {D P}.
Arguments _rate_tokens {D P}.
Arguments _last_refill {D P}.
Arguments clock {D P}.
Arguments rand_src {D P}.
Arguments rand_pos {D P}.
Arguments trace {D P}.

Section Engine.

Context {D P : Type} `{HDB : DB D} `{HPR : Providers P}.
Variable cfg : Config.

Abbreviation W := (World D P).

Definition M (A : Type) : Type := W -> Res A * W.

Definition ret {A} (a : A) : M A := fun w => (Ok a, w).
Definition raise {A} (e : exn) : M A := fun w => (Raise e, w).
Definition bind {A B} (m : M A) (k : A -> M B) : M B :=
  fun w => match m w with
           | (Ok a, w') => k a w'
           | (Raise e, w') => (Raise e, w')
           end.

(** [try: m  except Exception as e: h e].  [LoopFuel] is no exception of
    the program and passes through. *)
Definition try_except {A} (m : M A) (h : exn -> M A) : M A :=
  fun w => match m w with
           | (Ok a, w') => (Ok a, w')
           | (Raise LoopFuel, w') => (Raise LoopFuel, w')
           | (Raise e, w') => h e w'
           end.

Notation "'let*' x ':=' m 'in' k" := (bind m (fun x => k))
  (at level 10, x name, m at level 100, k at level 200).
Notation "m '>>' k" := (bind m (fun _ => k))
  (at level 90, right associativity).

(** [for x in l: f x] *)
Fixpoint for_each {A} (f : A -> M unit) (l : list A) : M unit :=
  match l with
  | [] => ret tt
  | x :: r => f x >> for_each f r
  end.

(** *** Field updates *)

Definition set_db (d : D) (w : W) : W :=
  mkWorld d (providers w) (_counters w) (_primary_idx w) (_seen_cache w)
          (_rate_tokens w) (_last_refill w) (clock w) (rand_src w) (rand_pos w) (trace w).
Definition set_providers (p : P) (w : W) : W :=
  mkWorld (db w) p (_counters w) (_primary_idx w) (_seen_cache w)
          (_rate_tokens w) (_last_refill w) (clock w) (rand_src w) (rand_pos w) (trace w).
Definition set_counters (c : gmap string Z) (w : W) : W :=
  mkWorld (db w) (providers w) c (_primary_idx w) (_seen_cache w)
          (_rate_tokens w) (_last_refill w) (clock w) (rand_src w) (rand_pos w) (trace w).
Definition set_seen_cache (s : gset string) (w : W) : W :=
  mkWorld (db w) (providers w) (_counters w) (_primary_idx w) s
          (_rate_tokens w) (_last_refill w) (clock w) (rand_src w) (rand_pos w) (trace w).
Definition set_rate_tokens (n : Z) (w : W) : W :=
  mkWorld (db w) (providers w) (_counters w) (_primary_idx w) (_seen_cache w)
          n (_last_refill w) (clock w) (rand_src w) (rand_pos w) (trace w).
Definition set_last_refill (t : Z) (w : W) : W :=
  mkWorld (db w) (providers w) (_counters w) (_primary_idx w) (_seen_cache w)
          (_rate_tokens w) t (clock w) (rand_src w) (rand_pos w) (trace w).
Definition set_clock (t : Z) (w : W) : W :=
  mkWorld (db w) (providers w) (_counters w) (_primary_idx w) (_seen_cache w)
          (_rate_tokens w) (_last_refill w) t (rand_src w) (rand_pos w) (trace w).
Definition set_rand_pos (n : nat) (w : W) : W :=
  mkWorld (db w) (providers w) (_counters w) (_primary_idx w) (_seen_cache w)
          (_rate_tokens w) (_last_refill w) (clock w) (rand_src w) n (trace w).
Definition emit (ev : Effect) (w : W) : W :=
  mkWorld (db w) (providers w) (_counters w) (_primary_idx w) (_seen_cache w)
          (_rate_tokens w) (_last_refill w) (clock w) (rand_src w) (rand_pos w)
          (trace w ++ [ev]).

(** *** The collaborators, as the engine calls them *)

Definition db_latest_transfer_ts (c : string) : M (option Z) :=
  fun w => let '(r, d) := latest_transfer_ts c (db w) in
           (r, set_db d (emit (CallLatestTs c) w)).
Definition db_insert_transfer (e : TransferEvent) : M bool :=
  fun w => let '(r, d) := insert_transfer e (db w) in
           (r, set_db d (emit (CallInsertTransfer e) w)).
Definition db_upsert_balance (b : BalanceUpdate) : M unit :=
  fun w => let '(r, d) := upsert_balance b (db w) in
           (r, set_db d (emit (CallUpsertBalance b) w)).

Definition provider_stream_transfers (idx : nat) (c : string) : M (list TransferEvent) :=
  fun w => let '(r, p) := stream_transfers idx c (providers w) in
           (r, set_providers p (emit (CallStreamTransfers idx c) w)).
Definition provider_rest_backfill (idx : nat) (c : string) (start horizon : Z)
  : M (list TransferEvent) :=
  fun w => let '(r, p) := rest_backfill idx c start horizon (providers w) in
           (r, set_providers p (emit (CallRestBackfill idx c start horizon) w)).

(** [datetime.now(tz=timezone.utc)] *)
Definition now : M Z := fun w => (Ok (clock w), w).

(** [asyncio.sleep(seconds)]: the task resumes once the delay has passed; a
    delay that is not positive passes at once. *)
Definition sleep (seconds : Q) : M unit :=
  fun w => (Ok tt, set_clock (clock w + Z.max 0 (Qceiling (seconds * 1000000)))
                     (emit (Sleep seconds) w)).

(** [random.uniform(a, b)], which is [a + (b - a) * random.random()] *)
Definition uniform (a b : Q) : M Q :=
  fun w => (Ok (a + (b - a) * rand_src w (rand_pos w))%Q, set_rand_pos (S (rand_pos w)) w).

Definition log (level msg : string) : M unit :=
  fun w => (Ok tt, emit (Log level msg) w).

(** *** metrics.py *)

Definition metrics_inc (name : string) (value : Z) (c : string) : M unit :=
  fun w => let v := default 0 (_counters w !! name) + value in
           (Ok tt, emit (MetricInc name v c) (set_counters (<[name := v]> (_counters w)) w)).

Definition metrics_observe (name : string) (value : Q) (c : string) : M unit :=
  fun w => (Ok tt, emit (MetricObserve name value c) w).

(** *** ingest_service.py *)

(** The value [_jitter_delay] returns when [random.uniform(0, base)] gave [u]. *)
Definition jitter_delay_value (base : Q) (attempt : Z) (max_seconds : Q) (u : Q) : Q :=
  let exp := (base * (2 ^ attempt))%Q in
  Qmin max_seconds (exp + u).

Definition _jitter_delay (base : Q) (attempt : Z) (max_seconds : Q) : M Q :=
  let* u := uniform 0 base in
  ret (jitter_delay_value base attempt max_seconds u).

Definition _event_key (e : TransferEvent) : string :=
  Str.lower (chain e +:+ ":" +:+ tx_hash e +:+ ":" +:+ from_addr e +:+ ":" +:+ to_addr e).

(** [_rate_limit]; [fuel] is the depth of recursion left to the task. *)
Fixpoint _rate_limit (fuel : nat) : M unit :=
  match fuel with
  | O => raise RecursionError
  | S fuel' =>
      let* t := now in
      fun w =>
        let elapsed := total_seconds (t - _last_refill w) in
        let refill := py_int (elapsed * inject_Z (rate_limit_per_sec cfg)) in
        let w1 :=
          if 0 <? refill
          then set_last_refill t
                 (set_rate_tokens (Z.min (rate_limit_per_sec cfg) (_rate_tokens w + refill)) w)
          else w in
        if _rate_tokens w1 =? 0
        then
          if rate_limit_per_sec cfg =? 0 then (Raise ZeroDivisionError, w1)
          else (sleep (1 / inject_Z (rate_limit_per_sec cfg)) >> _rate_limit fuel') w1
        else (Ok tt, set_rate_tokens (_rate_tokens w1 - 1) w1)
  end.

Definition _select_providers : M (nat * nat) :=
  fun w => (Ok (_primary_idx w, (1 - _primary_idx w)%nat), w).

(** The local variables of [_stream_with_failover]. *)
Record Failover := mkFailover {
  fo_primary : nat;
  fo_fallback : nat;
  fo_attempt : Z
}.

(** How the [except] branch leaves the local variables. *)
Definition failover_next (fo : Failover) : Failover :=
  let attempt := fo_attempt fo + 1 in
  if retry_max_attempts cfg <=? attempt
  then mkFailover (fo_fallback fo) (fo_primary fo) 0
  else mkFailover (fo_primary fo) (fo_fallback fo) attempt.

(** The [except] branch of [_stream_with_failover]. *)
Definition failover_except (fo : Failover) : M Failover :=
  let* delay := _jitter_delay (retry_base_seconds cfg) (fo_attempt fo) (retry_max_seconds cfg) in
  log "error" "stream_error" >>
  sleep delay >>
  (if retry_max_attempts cfg <=? fo_attempt fo + 1
   then log "warning" "stream_failover"
   else ret tt) >>
  ret (failover_next fo).

(** The [while True] loop of [_stream_with_failover], run until it reaches
    its [yield]: the result is the live sequence handed to the caller and the
    local variables of the suspended generator.  [fuel] bounds the number of
    passes; the source has no bound, and [LoopFuel] only marks that the bound
    given was too small. *)
Fixpoint failover_loop (fuel : nat) (c : string) (fo : Failover)
  : M (list TransferEvent * Failover) :=
  match fuel with
  | O => raise LoopFuel
  | S fuel' =>
      fun w =>
        match (log "info" "stream_connect" >> provider_stream_transfers (fo_primary fo) c) w with
        | (Ok s, w') => (Ok (s, fo), w')
        | (Raise _, w') => (let* fo' := failover_except fo in failover_loop fuel' c fo') w'
        end
  end.

(** Entering [async with self._stream_with_failover(chain)]. *)
Definition _stream_with_failover (fuel : nat) (c : string)
  : M (list TransferEvent * Failover) :=
  let* pf := _select_providers in
  failover_loop fuel c (mkFailover (fst pf) (snd pf) 0).

(** An exception raised in the body of the [async with] is thrown into the
    generator at its [yield], inside the [try]: the [except] branch runs, the
    loop goes round to the next [yield], and the context manager, whose
    generator did not stop, raises [RuntimeError]. *)
Definition _stream_with_failover_throw (fuel : nat) (c : string) (fo : Failover)
  : M unit :=
  let* fo' := failover_except fo in
  let* _ := failover_loop fuel c fo' in
  raise (RuntimeError "generator didn't stop after athrow()").

Definition debit_leg (e : TransferEvent) : BalanceUpdate :=
  mkBalanceUpdate (ts e) (from_addr e) (chain e) (token e)
    (- Qabs (amount e)) (- Qabs (usd_value e)) (provenance e) (raw e).

Definition credit_leg (e : TransferEvent) : BalanceUpdate :=
  mkBalanceUpdate (ts e) (to_addr e) (chain e) (token e)
    (Qabs (amount e)) (Qabs (usd_value e)) (provenance e) (raw e).

Definition lag_ms (t : Z) (e : TransferEvent) : Z :=
  Z.max 0 (py_int (total_seconds (t - ts e) * 1000)).

Definition _handle_event (fuel : nat) (e : TransferEvent) : M unit :=
  let key := _event_key e in
  fun w =>
    if decide (key ∈ _seen_cache w) then (Ok tt, w)
    else
      (_rate_limit fuel >>
       let* inserted := db_insert_transfer e in
       (if inserted : bool
        then db_upsert_balance (debit_leg e) >>
             db_upsert_balance (credit_leg e) >>
             metrics_inc "events_out" 1 (chain e)
        else ret tt) >>
       metrics_inc "events_in" 1 (chain e) >>
       let* t := now in
       metrics_observe "lag_ms" (inject_Z (lag_ms t e)) (chain e))
      (set_seen_cache ({[key]} ∪ _seen_cache w) w).

(** [start] and [horizon] of a backfill run. *)
Definition backfill_horizon (t : Z) : Z := t - timedelta_seconds (stream_lag_seconds cfg).
Definition backfill_start (t : Z) (last : option Z) : Z :=
  Z.max (match last with Some l => l | None => t - backfill_window cfg end)
        (t - backfill_window cfg).

(** The [for provider, name in ...] loop of [_backfill]. *)
Fixpoint backfill_providers (fuel : nat) (c : string) (start horizon : Z)
    (ps : list (nat * string)) : M unit :=
  match ps with
  | [] => ret tt
  | (idx, name) :: rest =>
      try_except
        (let* events := provider_rest_backfill idx c start horizon in
         for_each (_handle_event fuel) events >>
         (match events with [] => ret tt | _ => log "info" "backfill_done" end))
        (fun _ => log "error" "backfill_error" >>
                  backfill_providers fuel c start horizon rest)
  end.

Definition _backfill (fuel : nat) (c : string) : M unit :=
  let* t := now in
  let* last := db_latest_transfer_ts c in
  let horizon := backfill_horizon t in
  let start := backfill_start t last in
  if horizon <=? start then ret tt
  else
    let* pf := _select_providers in
    backfill_providers fuel c start horizon [(fst pf, "primary"%string); (snd pf, "fallback"%string)].

(** [_run_chain], for a live sequence that ends.  [fuel] bounds the
    recursion of the rate limiter, [loops] the passes of the failover loop. *)
Definition _run_chain (fuel loops : nat) (c : string) : M unit :=
  _backfill fuel c >>
  let* sf := _stream_with_failover loops c in
  try_except (for_each (_handle_event fuel) (fst sf))
             (fun _ => _stream_with_failover_throw loops c (snd sf)).

End Engine.

Arguments ret {D P A} a.
Arguments raise {D P A} e.
Arguments bind {D P A B} m k.
Arguments try_except {D P A} m h.
Arguments for_each {D P A} f l.

(** [IngestionService.__init__] with its collaborators given, at time [t0]. *)
Definition init {D P : Type} (cfg : Config) (d : D) (p : P) (t0 : Z) (rs : nat -> Q)
  : World D P :=
  mkWorld d p ∅
    (if String.eqb (primary_provider cfg) "alchemy" then 0%nat else 1%nat)
    ∅ (rate_limit_per_sec cfg) t0 t0 rs 0 [].

(** ** Test doubles *)

(** [MockProvider] of tests/test_ingest.py: the live sequence delivers the
    events, the historical query returns those of the window. *)
Module MockProvider.

Record t := mk { _events : list TransferEvent }.

Definition stream_transfers (idx : nat) (c : string) (p : t)
  : Res (list TransferEvent) * t := (Ok (_events p), p).

Definition rest_backfill (idx : nat) (c : string) (start end_ : Z) (p : t)
  : Res (list TransferEvent) * t :=
  (Ok (List.filter (fun e => (start <=? ts e) && (ts e <? end_)) (_events p)), p).

End MockProvider.

#[export] Instance MockProvider_Providers : Providers MockProvider.t := {
  stream_transfers := MockProvider.stream_transfers;
  rest_backfill := MockProvider.rest_backfill
}.

(** A pair of providers whose next [open_failures] calls of
    [stream_transfers] raise, whichever of the two is asked.  No provider of
    the repository is of this kind: theirs are generator functions, whose
    call cannot raise.  The pair only exercises the loop of the controller as
    it is written, for an implementation of the interface that would raise at
    the call. *)
Module FailingProviders.

Record t := mk { open_failures : nat; delivered : list TransferEvent }.

Definition stream_transfers (idx : nat) (c : string) (p : t)
  : Res (list TransferEvent) * t :=
  match open_failures p with
  | O => (Ok (delivered p), p)
  | S n => (Raise (ProviderError "connect"), mk n (delivered p))
  end.

Definition rest_backfill (idx : nat) (c : string) (start end_ : Z) (p : t)
  : Res (list TransferEvent) * t := (Ok [], p).

End FailingProviders.

#[export] Instance FailingProviders_Providers : Providers FailingProviders.t := {
  stream_transfers := FailingProviders.stream_transfers;
  rest_backfill := FailingProviders.rest_backfill
}.

(** A store whose [insert_transfer] raises while [broken] is set and is the
    in-memory store otherwise. *)
Module BrokenDB.

Record t := mk { inner : InMemoryDB.t; broken : bool }.

Definition lift {A} (r : Res A * InMemoryDB.t) (d : t) : Res A * t :=
  (fst r, mk (snd r) (broken d)).

Definition latest_transfer_ts (c : string) (d : t) : Res (option Z) * t :=
  lift (InMemoryDB.latest_transfer_ts c (inner d)) d.

Definition insert_transfer (e : TransferEvent) (d : t) : Res bool * t :=
  if broken d then (Raise (StoreError "write failed"), d)
  else lift (InMemoryDB.insert_transfer e (inner d)) d.

Definition upsert_balance (b : BalanceUpdate) (d : t) : Res unit * t :=
  lift (InMemoryDB.upsert_balance b (inner d)) d.

End BrokenDB.

#[export] Instance BrokenDB_DB : DB BrokenDB.t := {
  latest_transfer_ts := BrokenDB.latest_transfer_ts;
  insert_transfer := BrokenDB.insert_transfer;
  upsert_balance := BrokenDB.upsert_balance
}.

(** Calls on the in-memory store, for sequences of them. *)
Inductive db_call :=
| DoInsertTransfer (e : TransferEvent)
| DoUpsertBalance (b : BalanceUpdate)
| DoLatestTs (c : string)
| DoUpsertEntity (addr c : string) (label entity_type : option string)
                 (cex : bool) (meta : list (string * string)).

Definition run_call (d : InMemoryDB.t) (op : db_call) : InMemoryDB.t :=
  match op with
  | DoInsertTransfer e => snd (InMemoryDB.insert_transfer e d)
  | DoUpsertBalance b => snd (InMemoryDB.upsert_balance b d)
  | DoLatestTs c => snd (InMemoryDB.latest_transfer_ts c d)
  | DoUpsertEntity addr c label entity_type cex meta =>
      snd (InMemoryDB.upsert_entity addr c label entity_type cex meta d)
  end.

Definition run_calls (ops : list db_call) (d : InMemoryDB.t) : InMemoryDB.t :=
  fold_left run_call ops d.

(** ** Sample data: the events and configuration of tests/test_ingest.py *)

Module Sample.

Definition t_now : Z := 1800000000000000.

Definition ev1 : TransferEvent :=
  mkTransferEvent (t_now - 600000000) "0xabc" "0xfrom" "0xto" "ethereum" "ETH"
    1 2500 None None false (Some (mkProvenance "mock" "ws" "1")) (Some [("n", "1")]%string).

Definition ev2 : TransferEvent :=
  mkTransferEvent (t_now - 300000000) "0xabc" "0xfrom" "0xto" "ethereum" "ETH"
    1 2500 None None false (Some (mkProvenance "mock" "rest" "2")) (Some [("n", "2")]%string).

(** [ev1] as a provider with another letter case would report it. *)
Definition ev1_upper : TransferEvent :=
  mkTransferEvent (t_now - 600000000) "0xABC" "0xfrom" "0xto" "ethereum" "ETH"
    1 2500 None None false (Some (mkProvenance "mock" "ws" "1")) (Some [("n", "1")]%string).

(** A transfer from an address to itself. *)
Definition ev_self : TransferEvent :=
  mkTransferEvent (t_now - 600000000) "0xdef" "0xsame" "0xsame" "ethereum" "ETH"
    (-3) 7 None None false None None.

Definition cfg : Config :=
  mkConfig "" ["ethereum"%string] "alchemy" None None 5 24 3 (1 # 100) (5 # 100) 100.

Definition rs : nat -> Q := fun _ => 1 # 2.

Definition world : World InMemoryDB.t MockProvider.t :=
  init cfg InMemoryDB.init (MockProvider.mk [ev1; ev2]) t_now rs.

Definition broken_world : World BrokenDB.t MockProvider.t :=
  init cfg (BrokenDB.mk InMemoryDB.init true) (MockProvider.mk [ev1]) t_now rs.

(** The events and configuration of tests/test_backfill.py. *)
Definition gap_events : list TransferEvent :=
  [ mkTransferEvent (t_now - 1800000000) "0x01" "A" "B" "ethereum" "ETH" 1 1
      None None false (Some (mkProvenance "mock" "rest" "r1")) None;
    mkTransferEvent (t_now - 1200000000) "0x02" "B" "C" "ethereum" "ETH" 1 1
      None None false (Some (mkProvenance "mock" "rest" "r2")) None;
    mkTransferEvent (t_now - 600000000) "0x03" "C" "D" "ethereum" "ETH" 1 1
      None None false (Some (mkProvenance "mock" "rest" "r3")) None ].

Definition gap_cfg : Config :=
  mkConfig "" ["ethereum"%string] "alchemy" None None 1 1 2 (1 # 100) (5 # 100) 100.

(** The service of that test before its backfill; the provider answers the
    historical query as [SilentStream] does. *)
Definition gap_world : World InMemoryDB.t MockProvider.t :=
  init gap_cfg InMemoryDB.init (MockProvider.mk gap_events) t_now rs.

(** An event younger than the stream lag: only the live sequence brings it. *)
Definition ev_live : TransferEvent :=
  mkTransferEvent (t_now - 1000000) "0x999" "0xfrom" "0xto" "ethereum" "ETH"
    1 2500 None None false None None.

Definition broken_live_world : World BrokenDB.t MockProvider.t :=
  init cfg (BrokenDB.mk InMemoryDB.init true) (MockProvider.mk [ev_live]) t_now rs.

Definition failing_world (n : nat) : World InMemoryDB.t FailingProviders.t :=
  init cfg InMemoryDB.init (FailingProviders.mk n [ev1]) t_now rs.

End Sample.

(** ** Vocabulary of the statements *)

(** The lower-cased triple (chain, address, token) of a balance record. *)
Definition lowered_triple (b : BalanceUpdate) : string * string * string :=
  (Str.lower (bu_chain b), Str.lower (address b), Str.lower (bu_token b)).

(** The identity of a transfer for deduplication, case ignored. *)
Definition lowered_identity (e : TransferEvent) : string * string * string * string :=
  (Str.lower (chain e), Str.lower (tx_hash e), Str.lower (from_addr e), Str.lower (to_addr e)).

(** Every record of the balance table sits under its own key. *)
Definition balances_keyed (d : InMemoryDB.t) : Prop :=
  forall k b, InMemoryDB.balances d !! k = Some b -> k = InMemoryDB._bkey b.


(** The service right after [asyncio.sleep(seconds)]. *)
Definition after_sleep {D P : Type} (seconds : Q) (w : World D P) : World D P :=
  mkWorld (db w) (providers w) (_counters w) (_primary_idx w) (_seen_cache w)
          (_rate_tokens w) (_last_refill w)
          (clock w + Z.max 0 (Qceiling (seconds * 1000000)))
          (rand_src w) (rand_pos w) (trace w ++ [Sleep seconds]).

(** Events submitted one after the other to one service, whatever each
    submission does. *)
Definition submit_all {D P : Type} `{DB D} `{Providers P} (cfg : Config) (fuel : nat)
    (es : list TransferEvent) (w : World D P) : World D P :=
  fold_left (fun w e => snd (_handle_event cfg fuel e w)) es w.

(** A computation leaves a component [f] of the world as it found it. *)
Definition preserves {D P A X : Type} (f : World D P -> X) (m : @M D P A) : Prop :=
  forall w r w', m w = (r, w') -> f w' = f w.

(** A computation adds to the record of calls, and only calls in [ok]. *)
Definition emits {D P A : Type} (ok : Effect -> Prop) (m : @M D P A) : Prop :=
  forall w r w', m w = (r, w') -> exists tr, trace w' = trace w ++ tr /\ Forall ok tr.

(** What an admission adds to the record of calls: store writes, metrics
    and suspensions, never a provider call. *)
Definition admission_effect (ev : Effect) : Prop :=
  match ev with
  | CallInsertTransfer _ | CallUpsertBalance _ | Sleep _
  | MetricInc _ _ _ | MetricObserve _ _ _ => True
  | _ => False
  end.

(** What a backfill run over the window [[start, horizon)] of chain [c] may
    add to the record of calls: historical queries over that window only,
    no opening of a live sequence. *)
Definition backfill_effect (c : string) (start horizon : Z) (ev : Effect) : Prop :=
  match ev with
  | CallRestBackfill _ c' s h => c' = c /\ s = start /\ h = horizon
  | CallStreamTransfers _ _ => False
  | _ => True
  end.

(** After how many failed openings in a row the controller swaps its
    providers: [retry_max_attempts], a value below one counting as one. *)
Definition swap_period (cfg : Config) : Z := Z.max 1 (retry_max_attempts cfg).

(** The provider that the open attempt number [j] (from zero) targets when
    the providers are swapped every [m] failures. *)
Definition provider_at (primary_idx : nat) (m : Z) (j : Z) : nat :=
  if Z.even (j / m) then primary_idx else (1 - primary_idx)%nat.

(** ** Further test doubles and vocabulary *)

(** A pair of providers whose historical query always raises. *)
Module DownProviders.

Record t := mk { asked : nat }.

Definition stream_transfers (idx : nat) (c : string) (p : t)
  : Res (list TransferEvent) * t := (Ok [], p).

Definition rest_backfill (idx : nat) (c : string) (start end_ : Z) (p : t)
  : Res (list TransferEvent) * t :=
  (Raise (ProviderError "unavailable"), mk (S (asked p))).

End DownProviders.

#[export] Instance DownProviders_Providers : Providers DownProviders.t := {
  stream_transfers := DownProviders.stream_transfers;
  rest_backfill := DownProviders.rest_backfill
}.

(** A service started on a store that already holds [ev1]: the cache is
    empty, the store is not. *)
Definition restarted_world : World InMemoryDB.t MockProvider.t :=
  init Sample.cfg (snd (InMemoryDB.insert_transfer Sample.ev1 InMemoryDB.init))
       (MockProvider.mk [Sample.ev1]) Sample.t_now Sample.rs.

Definition down_world : World InMemoryDB.t DownProviders.t :=
  init Sample.cfg InMemoryDB.init (DownProviders.mk 0) Sample.t_now Sample.rs.

(** The transfers handed to [insert_transfer], in order. *)
Definition inserts_of (tr : list Effect) : list TransferEvent :=
  flat_map (fun ev => match ev with CallInsertTransfer e => [e] | _ => [] end) tr.

(** The providers asked for a historical query, in order. *)
Definition backfill_calls_of (tr : list Effect) : list nat :=
  flat_map (fun ev => match ev with CallRestBackfill i _ _ _ => [i] | _ => [] end) tr.

(** The events of [es] that carry a key seen neither in [seen] nor earlier
    in [es]. *)
Fixpoint admitted (seen : gset string) (es : list TransferEvent) : list TransferEvent :=
  match es with
  | [] => []
  | e :: r =>
      if decide (_event_key e ∈ seen) then admitted seen r
      else e :: admitted ({[_event_key e]} ∪ seen) r
  end.

(** The bucket of the rate limiter is within its bounds and the clock is
    not behind the last refill. *)
Definition bucket_ok {D P : Type} (cfg : Config) (w : World D P) : Prop :=
  0 <= _rate_tokens w <= rate_limit_per_sec cfg /\ _last_refill w <= clock w.

(** What the failover loop may add to the record of calls: its log lines,
    openings of a live sequence, and suspensions no longer than
    [retry_max_seconds]. *)
Definition failover_effect (cfg : Config) (ev : Effect) : Prop :=
  match ev with
  | Log _ _ | CallStreamTransfers _ _ => True
  | Sleep q => (q <= retry_max_seconds cfg)%Q
  | _ => False
  end.

(** The last record of [bs] whose key is [k]. *)
Definition last_upsert (k : string) (bs : list BalanceUpdate) : option BalanceUpdate :=
  fold_left (fun acc b => if decide (InMemoryDB._bkey b = k) then Some b else acc) bs None.

(** The store agrees with itself on the latest timestamp of chain [c]:
    none when no stored transfer is of that chain, otherwise the timestamp
    of a stored transfer of the chain that no other one exceeds. *)
Definition latest_ts_is_max (d : InMemoryDB.t) (c : string) : Prop :=
  match InMemoryDB._latest_ts d !! c with
  | None => forall k e, InMemoryDB.transfers d !! k = Some e -> chain e <> c
  | Some t =>
      (exists k e, InMemoryDB.transfers d !! k = Some e /\ chain e = c /\ ts e = t)
      /\ (forall k e, InMemoryDB.transfers d !! k = Some e -> chain e = c -> ts e <= t)
  end.

(** [_handle_event] from the call of [insert_transfer] on. *)
Definition admission_tail {D P : Type} `{DB D} (e : TransferEvent) : @M D P unit :=
  bind (db_insert_transfer e) (fun inserted =>
  bind (if inserted : bool
        then bind (db_upsert_balance (debit_leg e)) (fun _ =>
             bind (db_upsert_balance (credit_leg e)) (fun _ =>
             metrics_inc "events_out" 1 (chain e)))
        else ret tt) (fun _ =>
  bind (metrics_inc "events_in" 1 (chain e)) (fun _ =>
  bind now (fun t =>
  metrics_observe "lag_ms" (inject_Z (lag_ms t e)) (chain e))))).

(** A component of the world that no call on a collaborator and no metric
    changes. *)
Record untouched {D P X : Type} (f : World D P -> X) : Prop := {
  ut_db : forall d w, f (set_db d w) = f w;
  ut_providers : forall p w, f (set_providers p w) = f w;
  ut_counters : forall c w, f (set_counters c w) = f w;
  ut_emit : forall ev w, f (emit ev w) = f w
}.

(** [_run_chain] for a live sequence that raises [x] once its items are
    delivered, at its first item when it has none.  The live sequences of
    the repository's providers are generators: the call that creates one
    cannot raise, and a connection that fails shows when the sequence is
    consumed, in the body of the [async with]. *)
Definition _run_chain_stream_error {D P : Type} `{DB D} `{Providers P}
    (cfg : Config) (fuel loops : nat) (c : string) (x : exn) : @M D P unit :=
  bind (_backfill cfg fuel c) (fun _ =>
  bind (_stream_with_failover cfg loops c) (fun sf =>
  try_except (bind (for_each (_handle_event cfg fuel) (fst sf)) (fun _ => raise x))
             (fun _ => _stream_with_failover_throw cfg loops c (snd sf)))).

(** A service whose providers deliver nothing, neither by the historical
    query nor by the live sequence. *)
Definition quiet_world : World InMemoryDB.t MockProvider.t :=
  init Sample.cfg InMemoryDB.init (MockProvider.mk []) Sample.t_now Sample.rs.

(** * Properties *)

Example sha256_abc :
  Sha256.hexdigest (Str.encode "abc") =
  "ba7816bf8f01cfea414140de5dae2223b00361a396177a9cb410ff61f20015ad"%string.
Proof. vm_compute. reflexivity. Qed.

Example sha256_two_blocks :
  Sha256.hexdigest (Str.encode "aaaaaaaaaaaaaaaaaaaaaaaaaaaaaaaaaaaaaaaaaaaaaaaaaaaaaaaa") =
  "b35439a4ac6f0948b6d6f9e3c6af0f5f590ce20f1bde7090ef7970686ec6738a"%string.
Proof. vm_compute. reflexivity. Qed.

(** tests/test_ingest.py: one transfer stored, balances for both sides. *)
Example test_stream_and_backfill_idempotent :
  let r := _run_chain Sample.cfg 2 2 "ethereum" Sample.world in
  fst r = Ok tt
  /\ size (InMemoryDB.transfers (db (snd r))) = 1%nat
  /\ size (InMemoryDB.balances (db (snd r))) = 2%nat.
Proof. vm_compute. repeat split; reflexivity. Qed.

(** tests/test_backfill.py: the three events are stored by the backfill and
    the latest timestamp of the chain is that of the last one. *)
Example test_backfill_fills_gaps :
  let r := _backfill Sample.gap_cfg 2 "ethereum" Sample.gap_world in
  fst r = Ok tt
  /\ size (InMemoryDB.transfers (db (snd r))) = 3%nat
  /\ InMemoryDB._latest_ts (db (snd r)) !! "ethereum"%string
     = Some (Sample.t_now - 600000000).
Proof. vm_compute. repeat split; reflexivity. Qed.

Example tkey_sample :
  InMemoryDB._tkey Sample.ev1 =
  "8785fcd28e75a38f3b8fda7f143999abc75a117c42b7275903ad7b57d77dc193"%string.
Proof. vm_compute. reflexivity. Qed.

(** ** Backoff delay *)

Section Backoff.

Context {D P : Type}.

Lemma pow2_succ (n : Z) : (0 <= n)%Z -> (2 ^ (n + 1) == 2 ^ n * 2)%Q.
Proof.
  intros _. rewrite Qpower_plus; [reflexivity | discriminate].
Qed.

Lemma pow2_nonneg (n : Z) : (0 <= 2 ^ n)%Q.
Proof. apply Qpower_0_le. discriminate. Qed.

(** C7. The delay is [min(max_seconds, base * 2^n + u)] for the jitter [u]
    that [random.uniform(0, base)] returned; with [0 <= u <= base] it never
    exceeds [max_seconds], it lies in [[base * 2^n, base * 2^n + base]]
    whenever that interval is below the cap, and the lower bound
    [base * 2^n] does not decrease with [n]. *)
Theorem jitter_delay_bounds (base max_seconds u : Q) (n : Z) (w : World D P) :
  (0 <= n)%Z -> (0 <= u)%Q -> (u <= base)%Q ->
  _jitter_delay base n max_seconds w =
    (Ok (jitter_delay_value base n max_seconds (0 + (base - 0) * rand_src w (rand_pos w))),
     set_rand_pos (S (rand_pos w)) w)
  /\ jitter_delay_value base n max_seconds u = Qmin max_seconds (base * 2 ^ n + u)
  /\ (jitter_delay_value base n max_seconds u <= max_seconds)%Q
  /\ ((base * 2 ^ n + base <= max_seconds)%Q ->
      (base * 2 ^ n <= jitter_delay_value base n max_seconds u)%Q
      /\ (jitter_delay_value base n max_seconds u <= base * 2 ^ n + base)%Q)
  /\ (base * 2 ^ n <= base * 2 ^ (n + 1))%Q.
Proof.
  intros Hn Hu0 Hub.
  split; [reflexivity |].
  split; [reflexivity |].
  unfold jitter_delay_value.
  split; [apply Q.le_min_l |].
  split.
  - intros Hcap. split.
    + apply Q.min_glb; lra.
    + apply Qle_trans with (base * 2 ^ n + u)%Q; [apply Q.le_min_r | lra].
  - rewrite (pow2_succ n Hn).
    pose proof (pow2_nonneg n) as Hp.
    assert (Hb : (0 <= base)%Q) by lra.
    assert (Hm : (0 <= base * 2 ^ n)%Q) by (apply Qmult_le_0_compat; assumption).
    lra.
Qed.

End Backoff.

Lemma jitter_delay_bounds_witness :
  (jitter_delay_value (1 # 2) 3 15 (1 # 4) <= 15)%Q
  /\ ((1 # 2) * 2 ^ 3 <= jitter_delay_value (1 # 2) 3 15 (1 # 4))%Q
  /\ (jitter_delay_value (1 # 2) 3 15 (1 # 4) <= (1 # 2) * 2 ^ 3 + (1 # 2))%Q.
Proof.
  pose proof (jitter_delay_bounds (1 # 2) 15 (1 # 4) 3 Sample.world
                ltac:(lia) ltac:(vm_compute; discriminate) ltac:(vm_compute; discriminate))
    as (_ & _ & Hmax & Hin & _).
  split; [exact Hmax |].
  apply Hin. vm_compute. discriminate.
Defined.

(** ** Strings *)

Lemma lower_app (s1 s2 : string) :
  Str.lower (s1 +:+ s2) = Str.lower s1 +:+ Str.lower s2.
Proof.
  induction s1 as [| c s1 IH]; simpl; [reflexivity | now rewrite IH].
Qed.

Lemma bkey_of_triple (b : BalanceUpdate) :
  InMemoryDB._bkey b =
  (fst (fst (lowered_triple b)) +:+ ":" +:+ snd (fst (lowered_triple b)) +:+ ":"
   +:+ snd (lowered_triple b))%string.
Proof.
  unfold InMemoryDB._bkey, lowered_triple. simpl.
  now rewrite !lower_app.
Qed.

Lemma event_key_of_identity (e1 e2 : TransferEvent) :
  lowered_identity e1 = lowered_identity e2 -> _event_key e1 = _event_key e2.
Proof.
  unfold lowered_identity, _event_key. intros H.
  injection H as Hc Ht Hf Hto.
  rewrite !lower_app. now rewrite Hc, Ht, Hf, Hto.
Qed.

(** ** The store: identity of transfers *)

(** C1. On the code the claim fails: [_tkey] hashes the fields as they are
    written, so two events that differ only in the letter case of the
    transaction hash -- one identity for the admission cache, whose key is
    lower-cased -- get two keys, the second [insert_transfer] returns true
    and a second transfer row is stored. *)
Theorem insert_transfer_is_case_sensitive :
  lowered_identity Sample.ev1 = lowered_identity Sample.ev1_upper
  /\ _event_key Sample.ev1 = _event_key Sample.ev1_upper
  /\ InMemoryDB._tkey Sample.ev1 <> InMemoryDB._tkey Sample.ev1_upper
  /\ (let d1 := snd (InMemoryDB.insert_transfer Sample.ev1 InMemoryDB.init) in
      let r := InMemoryDB.insert_transfer Sample.ev1_upper d1 in
      fst r = Ok true /\ size (InMemoryDB.transfers (snd r)) = 2%nat).
Proof.
  split; [reflexivity |].
  split; [reflexivity |].
  split; [vm_compute; discriminate |].
  vm_compute. split; reflexivity.
Qed.

(** ** The rate limiter *)

Section RateLimiter.

Context {D P : Type} `{HDB : DB D} `{HPR : Providers P}.
Variable cfg : Config.

Lemma rate_limit_step (fuel : nat) (w : World D P) :
  _rate_limit cfg (S fuel) w =
  let refill := py_int (total_seconds (clock w - _last_refill w)
                        * inject_Z (rate_limit_per_sec cfg)) in
  let w1 := if 0 <? refill
            then set_last_refill (clock w)
                   (set_rate_tokens
                      (Z.min (rate_limit_per_sec cfg) (_rate_tokens w + refill)) w)
            else w in
  if _rate_tokens w1 =? 0
  then if rate_limit_per_sec cfg =? 0 then (Raise ZeroDivisionError, w1)
       else _rate_limit cfg fuel (after_sleep (1 / inject_Z (rate_limit_per_sec cfg)) w1)
  else (Ok tt, set_rate_tokens (_rate_tokens w1 - 1) w1).
Proof. reflexivity. Qed.

Lemma seconds_times_rate (d c : Z) :
  (total_seconds d * inject_Z c)%Q = (d * c) # 1000000.
Proof.
  unfold total_seconds, inject_Z, Qmult. simpl. now rewrite Pos.mul_1_r.
Qed.





(** At capacity zero the bucket is empty for ever and the wait divides by
    zero: the contract above needs its positive capacity. *)
Lemma rate_limit_zero_capacity (fuel : nat) (w : World D P) :
  rate_limit_per_sec cfg = 0 -> _rate_tokens w = 0 ->
  _rate_limit cfg (S fuel) w = (Raise ZeroDivisionError, w).
Proof.
  intros Hc Ht. rewrite rate_limit_step, Hc.
  replace (py_int _) with 0.
  - cbn. rewrite Ht. reflexivity.
  - rewrite seconds_times_rate, Z.mul_0_r. reflexivity.
Qed.

(** The rate limiter touches the bucket, the clock and the record of calls,
    where it adds suspensions only. *)
Lemma rate_limit_frame (fuel : nat) (w : World D P) r w' :
  _rate_limit cfg fuel w = (r, w') ->
  db w' = db w /\ providers w' = providers w /\ _seen_cache w' = _seen_cache w
  /\ _counters w' = _counters w /\ _primary_idx w' = _primary_idx w
  /\ exists tr, trace w' = trace w ++ tr
                /\ Forall (fun ev => exists q, ev = Sleep q) tr.
Proof.
  revert w. induction fuel as [| fuel IH]; intros w H.
  - injection H as <- <-. repeat split; try reflexivity.
    exists []. split; [now rewrite app_nil_r | constructor].
  - rewrite rate_limit_step in H. cbv zeta in H.
    set (w1 := if 0 <? _ then _ else w) in H.
    assert (Hw1 : db w1 = db w /\ providers w1 = providers w
                  /\ _seen_cache w1 = _seen_cache w /\ _counters w1 = _counters w
                  /\ _primary_idx w1 = _primary_idx w /\ trace w1 = trace w).
    { unfold w1. destruct (0 <? _); repeat split; reflexivity. }
    destruct Hw1 as (E1 & E2 & E3 & E4 & E5 & E6).
    destruct (_rate_tokens w1 =? 0).
    + destruct (rate_limit_per_sec cfg =? 0).
      * injection H as <- <-. repeat split; try assumption.
        exists []. split; [now rewrite app_nil_r, E6 | constructor].
      * apply IH in H. cbn in H.
        destruct H as (F1 & F2 & F3 & F4 & F5 & tr & F6 & F7).
        repeat split; try congruence.
        exists (Sleep (1 / inject_Z (rate_limit_per_sec cfg)) :: tr).
        split.
        -- rewrite F6, E6, <- app_assoc. reflexivity.
        -- constructor; [eexists; reflexivity | assumption].
    + injection H as <- <-. cbn. repeat split; try assumption.
      exists []. split; [now rewrite app_nil_r, E6 | constructor].
Qed.

End RateLimiter.


(** ** The admission pipeline *)

Section Admission.

Context {D P : Type} `{HDB : DB D} `{HPR : Providers P}.
Variable cfg : Config.

Lemma bind_Ok {A B} (m : @M D P A) (k : A -> @M D P B) w b w' :
  bind m k w = (Ok b, w') ->
  exists a w1, m w = (Ok a, w1) /\ k a w1 = (Ok b, w').
Proof.
  unfold bind. destruct (m w) as [[a | x] w1]; intros H.
  - exists a, w1. split; [reflexivity | exact H].
  - discriminate H.
Qed.

Lemma bind_Raise {A B} (m : @M D P A) (k : A -> @M D P B) w x w' :
  m w = (Raise x, w') -> bind m k w = (Raise x, w').
Proof. unfold bind. now intros ->. Qed.

Lemma bind_step {A B} (m : @M D P A) (k : A -> @M D P B) w a w1 :
  m w = (Ok a, w1) -> bind m k w = k a w1.
Proof. unfold bind. now intros ->. Qed.

(** The world once the metrics of step 5 are emitted. *)
Lemma lag_ms_quot (t : Z) (e : TransferEvent) :
  lag_ms t e = Z.max 0 ((t - ts e) ÷ 1000).
Proof.
  unfold lag_ms, py_int, total_seconds, Qmult. simpl.
  rewrite Pos.mul_1_r.
  change (Z.pos 1000000) with (1000 * 1000).
  rewrite Z.quot_mul_cancel_r by lia. reflexivity.
Qed.

Lemma handle_event_cached (fuel : nat) (e : TransferEvent) (w : World D P) :
  _event_key e ∈ _seen_cache w -> _handle_event cfg fuel e w = (Ok tt, w).
Proof.
  intros Hin. unfold _handle_event. destruct (decide _) as [_ | Hn]; [reflexivity | contradiction].
Qed.

(** The steps of an admission that returns: the key enters the cache, a
    token is acquired, the transfer is inserted, the two legs are written
    when it is new, and the two metrics are emitted. *)
Lemma handle_event_returns (fuel : nat) (e : TransferEvent) (w w' : World D P) :
  _event_key e ∉ _seen_cache w ->
  _handle_event cfg fuel e w = (Ok tt, w') ->
  exists w1 ins d2 w3,
    _rate_limit cfg fuel (set_seen_cache ({[_event_key e]} ∪ _seen_cache w) w) = (Ok tt, w1)
    /\ insert_transfer e (db w1) = (Ok ins, d2)
    /\ (if ins
        then exists d3 d4,
            upsert_balance (debit_leg e) d2 = (Ok tt, d3)
            /\ upsert_balance (credit_leg e) d3 = (Ok tt, d4)
            /\ w3 =
               let v := default 0 (_counters w1 !! "events_out"%string) + 1 in
               emit (MetricInc "events_out" v (chain e))
                 (set_counters (<["events_out"%string := v]> (_counters w1))
                    (set_db d4 (emit (CallUpsertBalance (credit_leg e))
                       (set_db d3 (emit (CallUpsertBalance (debit_leg e))
                          (set_db d2 (emit (CallInsertTransfer e) w1)))))))
        else w3 = set_db d2 (emit (CallInsertTransfer e) w1))
    /\ w' =
       let v := default 0 (_counters w3 !! "events_in"%string) + 1 in
       emit (MetricObserve "lag_ms" (inject_Z (lag_ms (clock w3) e)) (chain e))
         (emit (MetricInc "events_in" v (chain e))
            (set_counters (<["events_in"%string := v]> (_counters w3)) w3)).
Proof.
  intros Hfresh Hrun. unfold _handle_event in Hrun.
  destruct (decide _) as [Hin | _]; [contradiction |].
  apply bind_Ok in Hrun as ([] & w1 & Hrl & Hrun).
  apply bind_Ok in Hrun as (ins & w2 & Hins & Hrun).
  unfold db_insert_transfer in Hins.
  destruct (insert_transfer e (db w1)) as [r d2] eqn:Hdb.
  injection Hins as -> <-.
  apply bind_Ok in Hrun as ([] & w3 & Hlegs & Hrun).
  exists w1, ins, d2, w3. split; [exact Hrl |]. split; [exact Hdb |].
  split.
  - destruct ins.
    + apply bind_Ok in Hlegs as ([] & wa & Hdeb & Hlegs).
      apply bind_Ok in Hlegs as ([] & wb & Hcre & Hlegs).
      unfold db_upsert_balance in Hdeb, Hcre. cbn in Hdeb.
      destruct (upsert_balance (debit_leg e) d2) as [ra d3] eqn:Hd3.
      injection Hdeb as -> <-. cbn in Hcre.
      destruct (upsert_balance (credit_leg e) d3) as [rb d4] eqn:Hd4.
      injection Hcre as -> <-.
      exists d3, d4.
      split; [first [exact Hd3 | reflexivity] |].
      split; [first [exact Hd4 | reflexivity] |].
      injection Hlegs as <-. reflexivity.
    + injection Hlegs as <-. reflexivity.
  - injection Hrun as <-. reflexivity.
Qed.

(** *** Framing *)

Lemma preserves_ret {A X} (f : World D P -> X) (a : A) : preserves f (ret a).
Proof. intros w r w' H. now injection H as _ <-. Qed.

Lemma preserves_raise {A X} (f : World D P -> X) x : preserves f (@raise D P A x).
Proof. intros w r w' H. now injection H as _ <-. Qed.

Lemma preserves_bind {A B X} (f : World D P -> X) (m : @M D P A) (k : A -> @M D P B) :
  preserves f m -> (forall a, preserves f (k a)) -> preserves f (bind m k).
Proof.
  intros Hm Hk w r w' H. unfold bind in H.
  destruct (m w) as [[a | x] w1] eqn:E.
  - rewrite (Hk a _ _ _ H). exact (Hm _ _ _ E).
  - injection H as _ <-. exact (Hm _ _ _ E).
Qed.

Lemma preserves_try {A X} (f : World D P -> X) (m : @M D P A) h :
  preserves f m -> (forall x, preserves f (h x)) -> preserves f (try_except m h).
Proof.
  intros Hm Hh w r w' H. unfold try_except in H.
  destruct (m w) as [[a | x] w1] eqn:E.
  - injection H as _ <-. exact (Hm _ _ _ E).
  - pose proof (Hh x) as Hx.
    destruct x;
      first [ rewrite (Hx _ _ _ H); exact (Hm _ _ _ E)
            | injection H as _ <-; exact (Hm _ _ _ E) ].
Qed.

Lemma emits_ret {A} ok (a : A) : emits ok (@ret D P A a).
Proof.
  intros w r w' H. injection H as _ <-. exists []. now rewrite app_nil_r.
Qed.

Lemma emits_bind {A B} ok (m : @M D P A) (k : A -> @M D P B) :
  emits ok m -> (forall a, emits ok (k a)) -> emits ok (bind m k).
Proof.
  intros Hm Hk w r w' H. unfold bind in H.
  destruct (m w) as [[a | x] w1] eqn:E.
  - destruct (Hm _ _ _ E) as (t1 & E1 & F1).
    destruct (Hk a _ _ _ H) as (t2 & E2 & F2).
    exists (t1 ++ t2). rewrite E2, E1, <- app_assoc. split; [reflexivity |].
    apply Forall_app; split; assumption.
  - injection H as _ <-. exact (Hm _ _ _ E).
Qed.

Lemma emits_try {A} ok (m : @M D P A) h :
  emits ok m -> (forall x, emits ok (h x)) -> emits ok (try_except m h).
Proof.
  intros Hm Hh w r w' H. unfold try_except in H.
  destruct (m w) as [[a | x] w1] eqn:E.
  - injection H as _ <-. exact (Hm _ _ _ E).
  - destruct (Hm _ _ _ E) as (t1 & E1 & F1).
    pose proof (Hh x) as Hx.
    destruct x;
      first [ destruct (Hx _ _ _ H) as (t2 & E2 & F2);
              exists (t1 ++ t2); rewrite E2, E1, <- app_assoc;
              split; [reflexivity | apply Forall_app; split; assumption]
            | injection H as _ <-; exists t1; split; assumption ].
Qed.

Lemma emits_for_each {A} ok (f : A -> @M D P unit) (l : list A) :
  (forall a, emits ok (f a)) -> emits ok (for_each f l).
Proof.
  intros Hf. induction l as [| a l IH]; simpl.
  - apply emits_ret.
  - apply emits_bind; [apply Hf | intros _; exact IH].
Qed.

Lemma emits_one {A} (ok : Effect -> Prop) (m : @M D P A) ev :
  ok ev -> (forall w r w', m w = (r, w') -> trace w' = trace w ++ [ev]) -> emits ok m.
Proof.
  intros Hok Hm w r w' H. exists [ev]. split; [exact (Hm _ _ _ H) |].
  constructor; [exact Hok | constructor].
Qed.

Lemma emits_weaken {A} (ok ok' : Effect -> Prop) (m : @M D P A) :
  (forall ev, ok ev -> ok' ev) -> emits ok m -> emits ok' m.
Proof.
  intros Himp Hm w r w' H. destruct (Hm _ _ _ H) as (tr & E & F).
  exists tr. split; [exact E |]. eapply Forall_impl; [exact F | exact Himp].
Qed.

Lemma emits_rate_limit fuel :
  emits (fun ev => exists q, ev = Sleep q) (@_rate_limit D P cfg fuel).
Proof.
  intros w r w' H. apply rate_limit_frame in H.
  destruct H as (_ & _ & _ & _ & _ & tr & E & F). exists tr. split; assumption.
Qed.

Lemma emits_db_insert_transfer e : emits admission_effect (@db_insert_transfer D P _ e).
Proof.
  apply emits_one with (ev := CallInsertTransfer e); [exact I |].
  intros w r w' H. unfold db_insert_transfer in H.
  destruct (insert_transfer e (db w)). now injection H as _ <-.
Qed.

Lemma emits_db_upsert_balance b : emits admission_effect (@db_upsert_balance D P _ b).
Proof.
  apply emits_one with (ev := CallUpsertBalance b); [exact I |].
  intros w r w' H. unfold db_upsert_balance in H.
  destruct (upsert_balance b (db w)). now injection H as _ <-.
Qed.

Lemma emits_metrics_inc name v c : emits admission_effect (@metrics_inc D P name v c).
Proof.
  intros w r w' H. injection H as _ <-.
  eexists [_]. split; [reflexivity |]. constructor; [exact I | constructor].
Qed.

Lemma emits_handle_event fuel e : emits admission_effect (@_handle_event D P _ cfg fuel e).
Proof.
  intros w r w' H. unfold _handle_event in H.
  destruct (decide _) as [_ | _].
  - injection H as _ <-. exists []. now rewrite app_nil_r.
  - match type of H with
    | ?m _ = _ => assert (Hbody : emits admission_effect m)
    end.
    { apply emits_bind.
      - eapply emits_weaken; [| apply emits_rate_limit].
        intros ev [q ->]. exact I.
      - intros _. apply emits_bind; [apply emits_db_insert_transfer |].
        intros ins. apply emits_bind.
        + destruct ins; [| apply emits_ret].
          apply emits_bind; [apply emits_db_upsert_balance | intros _].
          apply emits_bind; [apply emits_db_upsert_balance | intros _].
          apply emits_metrics_inc.
        + intros _. apply emits_bind; [apply emits_metrics_inc | intros _].
          apply emits_bind.
          * intros w2 r2 w2' H2. injection H2 as _ <-. exists []. now rewrite app_nil_r.
          * intros t. eapply emits_one with (ev := MetricObserve _ _ _); [exact I |].
            intros w2 r2 w2' H2. injection H2 as _ <-. reflexivity. }
    exact (Hbody _ _ _ H).
Qed.

Lemma upserts_of_app (t1 t2 : list Effect) :
  upserts_of (t1 ++ t2) = upserts_of t1 ++ upserts_of t2.
Proof. apply flat_map_app. Qed.

Lemma upserts_of_sleeps (tr : list Effect) :
  Forall (fun ev => exists q, ev = Sleep q) tr -> upserts_of tr = [].
Proof.
  induction 1 as [| ev tr [q ->] _ IH]; [reflexivity | exact IH].
Qed.

Lemma Qopp_opp_eq (q : Q) : (- - q)%Q = q.
Proof. destruct q as [n d]. unfold Qopp. simpl. now rewrite Z.opp_involutive. Qed.

(** C2. When [insert_transfer] returns true and the admission returns, the
    pipeline has called [upsert_balance] exactly twice, first with the debit
    leg at [from_addr], then with the credit leg at [to_addr]; the credit
    amount and USD value are the negations of the debit ones, and both legs
    carry the magnitude of the event. *)
Theorem balance_conservation (fuel : nat) (e : TransferEvent) (w w' : World D P) d2 :
  _event_key e ∉ _seen_cache w ->
  insert_transfer e (db w) = (Ok true, d2) ->
  _handle_event cfg fuel e w = (Ok tt, w') ->
  upserts_of (trace w') = upserts_of (trace w) ++ [debit_leg e; credit_leg e]
  /\ address (debit_leg e) = from_addr e
  /\ address (credit_leg e) = to_addr e
  /\ bu_amount (credit_leg e) = (- bu_amount (debit_leg e))%Q
  /\ bu_usd_value (credit_leg e) = (- bu_usd_value (debit_leg e))%Q
  /\ Qabs (bu_amount (debit_leg e)) = Qabs (amount e)
  /\ bu_amount (credit_leg e) = Qabs (amount e).
Proof.
  intros Hfresh Hins Hrun.
  destruct (handle_event_returns fuel e w w' Hfresh Hrun)
    as (w1 & ins & d2' & w3 & Hrl & Hdb & Hlegs & ->).
  destruct (rate_limit_frame cfg fuel _ _ _ Hrl) as (Edb & _ & _ & _ & _ & tr & Etr & Fsl).
  cbn in Edb, Etr. rewrite Edb, Hins in Hdb. injection Hdb as <- <-.
  destruct Hlegs as (d3 & d4 & _ & _ & ->).
  split.
  - cbn. rewrite Etr, !upserts_of_app, (upserts_of_sleeps tr Fsl). cbn.
    rewrite !app_nil_r, <- app_assoc. reflexivity.
  - cbn. repeat split; try (symmetry; apply Qopp_opp_eq).
    destruct (amount e) as [n q]. unfold Qabs, Qopp. simpl.
    f_equal. lia.
Qed.

(** *** What an admission does to the cache *)

Lemma preserves_rate_limit_cache fuel :
  preserves _seen_cache (@_rate_limit D P cfg fuel).
Proof. intros w r w' H. now apply rate_limit_frame in H. Qed.

Lemma preserves_insert_cache e : preserves _seen_cache (@db_insert_transfer D P _ e).
Proof.
  intros w r w' H. unfold db_insert_transfer in H.
  destruct (insert_transfer e (db w)). now injection H as _ <-.
Qed.

Lemma preserves_upsert_cache b : preserves _seen_cache (@db_upsert_balance D P _ b).
Proof.
  intros w r w' H. unfold db_upsert_balance in H.
  destruct (upsert_balance b (db w)). now injection H as _ <-.
Qed.

Lemma preserves_metrics_inc_cache n v c : preserves _seen_cache (@metrics_inc D P n v c).
Proof. intros w r w' H. now injection H as _ <-. Qed.

Lemma handle_event_cache (fuel : nat) (e : TransferEvent) (w : World D P) r w' :
  _handle_event cfg fuel e w = (r, w') ->
  _seen_cache w' = _seen_cache w
  \/ ((_event_key e ∉ _seen_cache w) /\ _seen_cache w' = {[_event_key e]} ∪ _seen_cache w).
Proof.
  intros H. unfold _handle_event in H.
  destruct (decide _) as [_ | Hn].
  - injection H as _ <-. now left.
  - right. split; [exact Hn |].
    match type of H with
    | ?m _ = _ => assert (Hbody : preserves _seen_cache m)
    end.
    { apply preserves_bind; [apply preserves_rate_limit_cache | intros _].
      apply preserves_bind; [apply preserves_insert_cache | intros ins].
      apply preserves_bind.
      - destruct ins; [| apply preserves_ret].
        apply preserves_bind; [apply preserves_upsert_cache | intros _].
        apply preserves_bind; [apply preserves_upsert_cache | intros _].
        apply preserves_metrics_inc_cache.
      - intros _. apply preserves_bind; [apply preserves_metrics_inc_cache | intros _].
        apply preserves_bind.
        + intros w2 r2 w2' H2. now injection H2 as _ <-.
        + intros t w2 r2 w2' H2. now injection H2 as _ <-. }
    exact (Hbody _ _ _ H).
Qed.

Lemma handle_event_cache_grows (fuel : nat) (e : TransferEvent) (w : World D P) :
  _seen_cache w ⊆ _seen_cache (snd (_handle_event cfg fuel e w)).
Proof.
  destruct (_handle_event cfg fuel e w) as [r w'] eqn:H.
  destruct (handle_event_cache fuel e w r w' H) as [E | [_ E]]; simpl; rewrite E;
    [reflexivity | apply union_subseteq_r].
Qed.

Lemma submit_all_cache_grows (fuel : nat) (es : list TransferEvent) (w : World D P) :
  _seen_cache w ⊆ _seen_cache (submit_all cfg fuel es w).
Proof.
  revert w. induction es as [| e es IH]; intros w; simpl; [set_solver |].
  etransitivity; [apply (handle_event_cache_grows fuel e) | apply IH].
Qed.

(** C9. The key enters the cache before the store is called: when
    [insert_transfer] raises, the admission raises the same error with the
    key cached and nothing after the failed call recorded; from then on,
    whatever else is submitted in between, an event with the same key is
    discarded -- the submission returns and leaves the service, the store
    and the record of calls as they were. *)
Theorem cached_before_insert (fuel : nat) (e : TransferEvent) (w w1 : World D P) x d2 :
  _event_key e ∉ _seen_cache w ->
  _rate_limit cfg fuel (set_seen_cache ({[_event_key e]} ∪ _seen_cache w) w) = (Ok tt, w1) ->
  insert_transfer e (db w1) = (Raise x, d2) ->
  exists w',
    _handle_event cfg fuel e w = (Raise x, w')
    /\ w' = set_db d2 (emit (CallInsertTransfer e) w1)
    /\ _event_key e ∈ _seen_cache w'
    /\ forall (fuel' : nat) (es : list TransferEvent) (e' : TransferEvent),
         _event_key e' = _event_key e ->
         _handle_event cfg fuel' e' (submit_all cfg fuel' es w')
         = (Ok tt, submit_all cfg fuel' es w').
Proof.
  intros Hfresh Hrl Hins.
  pose proof (preserves_rate_limit_cache fuel _ _ _ Hrl) as Hc. cbn in Hc.
  exists (set_db d2 (emit (CallInsertTransfer e) w1)).
  assert (Hin : _event_key e ∈ _seen_cache (set_db d2 (emit (CallInsertTransfer e) w1))).
  { cbn. rewrite Hc. apply elem_of_union. left. now apply elem_of_singleton. }
  split; [| split; [reflexivity | split; [exact Hin |]]].
  - unfold _handle_event. destruct (decide _) as [Hy | _]; [contradiction |].
    rewrite (bind_step _ _ _ _ _ Hrl).
    apply bind_Raise. unfold db_insert_transfer. now rewrite Hins.
  - intros fuel' es e' Hkey. apply handle_event_cached. rewrite Hkey.
    apply (submit_all_cache_grows fuel' es). exact Hin.
Qed.

(** C5, as the code has it.  An event whose key is already in the cache is
    discarded before any metric is emitted.  Every other event whose
    admission returns -- new, or refused by the store as already present --
    has [events_in] incremented by one and, last, the lag observed:
    [now - event.ts] in milliseconds, clamped at zero. *)
Theorem admission_metrics (fuel : nat) (e : TransferEvent) (w w' : World D P) :
  (_event_key e ∈ _seen_cache w -> _handle_event cfg fuel e w = (Ok tt, w))
  /\ ((_event_key e ∉ _seen_cache w) ->
      _handle_event cfg fuel e w = (Ok tt, w') ->
      let n := default 0 (_counters w !! "events_in"%string) + 1 in
      let lag := Z.max 0 ((clock w' - ts e) ÷ 1000) in
      _counters w' !! "events_in"%string = Some n
      /\ 0 <= lag
      /\ exists tr,
          trace w' = trace w ++ tr ++ [MetricInc "events_in" n (chain e);
                                       MetricObserve "lag_ms" (inject_Z lag) (chain e)]).
Proof.
  split; [apply handle_event_cached |].
  intros Hfresh Hrun n lag.
  destruct (handle_event_returns fuel e w w' Hfresh Hrun)
    as (w1 & ins & d2 & w3 & Hrl & Hdb & Hlegs & ->).
  destruct (rate_limit_frame cfg fuel _ _ _ Hrl) as (_ & _ & _ & Ecnt & _ & tr & Etr & _).
  cbn in Ecnt, Etr.
  assert (Hcnt : _counters w3 !! "events_in"%string = _counters w !! "events_in"%string).
  { destruct ins.
    - destruct Hlegs as (d3 & d4 & _ & _ & ->). cbn.
      rewrite lookup_insert_ne by discriminate. now rewrite Ecnt.
    - rewrite Hlegs. cbn. now rewrite Ecnt. }
  assert (Htr : exists tr', trace w3 = trace w ++ tr').
  { destruct ins.
    - destruct Hlegs as (d3 & d4 & _ & _ & ->). cbn. rewrite Etr.
      eexists. rewrite <- !app_assoc. reflexivity.
    - rewrite Hlegs. cbn. rewrite Etr. eexists. rewrite <- !app_assoc. reflexivity. }
  destruct Htr as (tr' & Htr).
  split; [| split].
  - cbn. rewrite lookup_insert_eq, Hcnt. reflexivity.
  - unfold lag. lia.
  - exists tr'. cbn. rewrite Hcnt, Htr, lag_ms_quot, <- !app_assoc. reflexivity.
Qed.

End Admission.

Lemma balance_conservation_witness :
  upserts_of (trace (snd (_handle_event Sample.cfg 2 Sample.ev1 Sample.world)))
  = [debit_leg Sample.ev1; credit_leg Sample.ev1].
Proof.
  refine (proj1 (balance_conservation Sample.cfg 2 Sample.ev1 Sample.world
                   (snd (_handle_event Sample.cfg 2 Sample.ev1 Sample.world))
                   (snd (InMemoryDB.insert_transfer Sample.ev1 InMemoryDB.init))
                   _ _ _)).
  - vm_compute. discriminate.
  - vm_compute. reflexivity.
  - vm_compute. reflexivity.
Defined.

Lemma admission_metrics_witness :
  _counters (snd (_handle_event Sample.cfg 2 Sample.ev1 Sample.world)) !! "events_in"%string
  = Some 1.
Proof.
  refine (proj1 (proj2 (admission_metrics Sample.cfg 2 Sample.ev1 Sample.world
                          (snd (_handle_event Sample.cfg 2 Sample.ev1 Sample.world)))
                   _ _)).
  - vm_compute. discriminate.
  - vm_compute. reflexivity.
Defined.

(** C5 as stated fails on a cache-level duplicate: [ev2] has the key of
    [ev1]; submitted after it, it leaves [events_in] at one and adds nothing
    to the record of calls. *)
Lemma cached_duplicate_emits_no_metric :
  let w1 := snd (_handle_event Sample.cfg 2 Sample.ev1 Sample.world) in
  let w2 := snd (_handle_event Sample.cfg 2 Sample.ev2 w1) in
  _counters w1 !! "events_in"%string = Some 1
  /\ _counters w2 !! "events_in"%string <> Some (1 + 1)
  /\ trace w2 = trace w1.
Proof.
  vm_compute. split; [reflexivity | split; [discriminate | reflexivity]].
Qed.

Lemma cached_before_insert_witness :
  exists w',
    _handle_event Sample.cfg 2 Sample.ev1 Sample.broken_world
    = (Raise (StoreError "write failed"), w')
    /\ _event_key Sample.ev1 ∈ _seen_cache w'
    /\ _handle_event Sample.cfg 2 Sample.ev2 w' = (Ok tt, w').
Proof.
  destruct (cached_before_insert Sample.cfg 2 Sample.ev1 Sample.broken_world
              (snd (_rate_limit Sample.cfg 2
                      (set_seen_cache ({[_event_key Sample.ev1]}
                                       ∪ _seen_cache Sample.broken_world)
                                      Sample.broken_world)))
              (StoreError "write failed")
              (BrokenDB.mk InMemoryDB.init true)
              ltac:(vm_compute; discriminate)
              ltac:(vm_compute; reflexivity)
              ltac:(vm_compute; reflexivity))
    as (w' & Hrun & _ & Hin & Hlater).
  exists w'. split; [exact Hrun | split; [exact Hin |]].
  exact (Hlater 2%nat [] Sample.ev2 eq_refl).
Defined.

(** ** The in-memory balance table *)

Section InMemoryBalances.

Context {P : Type} `{HPR : Providers P}.
Variable cfg : Config.

Lemma balances_keyed_init : balances_keyed InMemoryDB.init.
Proof. intros k b H. cbn in H. now rewrite lookup_empty in H. Qed.

Lemma balances_keyed_call (d : InMemoryDB.t) (op : db_call) :
  balances_keyed d -> balances_keyed (run_call d op).
Proof.
  intros Hk. destruct op as [e | b | c | addr c label ety cex meta]; simpl.
  - unfold InMemoryDB.insert_transfer.
    destruct (InMemoryDB.transfers d !! InMemoryDB._tkey e); simpl; exact Hk.
  - intros k b' H. cbn in H.
    destruct (decide (InMemoryDB._bkey b = k)) as [<- | Hne].
    + rewrite lookup_insert_eq in H. now injection H as <-.
    + rewrite lookup_insert_ne in H by exact Hne. now apply Hk.
  - exact Hk.
  - exact Hk.
Qed.

Lemma balances_keyed_calls (ops : list db_call) (d : InMemoryDB.t) :
  balances_keyed d -> balances_keyed (run_calls ops d).
Proof.
  revert d. induction ops as [| op ops IH]; intros d Hk; simpl; [exact Hk |].
  apply IH, balances_keyed_call, Hk.
Qed.

(** C10. After any sequence of calls on the in-memory store two retained
    balance records with the same lower-cased (chain, address, token) are
    one record under one key.  For an accepted transfer from an address to
    itself the two legs have the same key: the admission leaves one row
    there, the credit leg with amount [+|amount|], written over the debit
    leg, and adds no other row. *)
Theorem upsert_balance_overwrites :
  (forall (ops : list db_call) (k1 k2 : string) (b1 b2 : BalanceUpdate),
      let d := run_calls ops InMemoryDB.init in
      InMemoryDB.balances d !! k1 = Some b1 ->
      InMemoryDB.balances d !! k2 = Some b2 ->
      lowered_triple b1 = lowered_triple b2 ->
      k1 = k2 /\ b1 = b2)
  /\ (forall (fuel : nat) (e : TransferEvent) (w w' : World InMemoryDB.t P),
        from_addr e = to_addr e ->
        (_event_key e ∉ _seen_cache w) ->
        InMemoryDB.transfers (db w) !! InMemoryDB._tkey e = None ->
        _handle_event cfg fuel e w = (Ok tt, w') ->
        InMemoryDB._bkey (debit_leg e) = InMemoryDB._bkey (credit_leg e)
        /\ InMemoryDB.balances (db w')
           = <[InMemoryDB._bkey (credit_leg e) := credit_leg e]> (InMemoryDB.balances (db w))
        /\ InMemoryDB.balances (db w') !! InMemoryDB._bkey (debit_leg e) = Some (credit_leg e)
        /\ bu_amount (credit_leg e) = Qabs (amount e)).
Proof.
  split.
  - intros ops k1 k2 b1 b2 d H1 H2 Ht.
    pose proof (balances_keyed_calls ops _ balances_keyed_init) as Hk. fold d in Hk.
    assert (Hkeys : k1 = k2).
    { rewrite (Hk _ _ H1), (Hk _ _ H2), !bkey_of_triple, Ht. reflexivity. }
    split; [exact Hkeys |]. subst k2. rewrite H1 in H2. now injection H2.
  - intros fuel e w w' Hself Hfresh Hnew Hrun.
    assert (Hkey : InMemoryDB._bkey (debit_leg e) = InMemoryDB._bkey (credit_leg e)).
    { unfold InMemoryDB._bkey, debit_leg, credit_leg. cbn. now rewrite Hself. }
    destruct (handle_event_returns cfg fuel e w w' Hfresh Hrun)
      as (w1 & ins & d2 & w3 & Hrl & Hdb & Hlegs & ->).
    destruct (rate_limit_frame cfg fuel _ _ _ Hrl) as (Edb & _).
    cbn in Edb, Hdb. unfold InMemoryDB.insert_transfer in Hdb.
    rewrite Edb, Hnew in Hdb. injection Hdb as <- <-.
    destruct Hlegs as (d3 & d4 & Hd3 & Hd4 & ->).
    cbn in Hd3. injection Hd3 as <-. cbn in Hd4. injection Hd4 as <-.
    cbn. rewrite Hkey, insert_insert_eq, lookup_insert_eq.
    repeat split; reflexivity.
Qed.

End InMemoryBalances.

Lemma upsert_balance_overwrites_witness :
  let w' := snd (_handle_event Sample.cfg 2 Sample.ev_self Sample.world) in
  InMemoryDB.balances (db w') !! InMemoryDB._bkey (debit_leg Sample.ev_self)
  = Some (credit_leg Sample.ev_self)
  /\ size (InMemoryDB.balances (db w')) = 1%nat.
Proof.
  split.
  - refine (proj1 (proj2 (proj2
      (proj2 (upsert_balance_overwrites Sample.cfg) 2%nat Sample.ev_self Sample.world
         (snd (_handle_event Sample.cfg 2 Sample.ev_self Sample.world)) _ _ _ _)))).
    + reflexivity.
    + vm_compute. discriminate.
    + vm_compute. reflexivity.
    + vm_compute. reflexivity.
  - vm_compute. reflexivity.
Defined.

(** ** The backfill planner *)

Section Backfill.

Context {D P : Type} `{HDB : DB D} `{HPR : Providers P}.
Variable cfg : Config.

Lemma emits_log ok level msg :
  ok (Log level msg) -> emits ok (@log D P level msg).
Proof.
  intros Hok. apply emits_one with (ev := Log level msg); [exact Hok |].
  intros w r w' H. now injection H as _ <-.
Qed.

Lemma emits_backfill_providers fuel c start horizon ps :
  emits (backfill_effect c start horizon)
        (@backfill_providers D P _ _ cfg fuel c start horizon ps).
Proof.
  induction ps as [| [idx name] ps IH]; simpl.
  - apply emits_ret.
  - apply emits_try.
    + apply emits_bind.
      * apply emits_one with (ev := CallRestBackfill idx c start horizon).
        -- repeat split.
        -- intros w r w' H. unfold provider_rest_backfill in H.
           destruct (rest_backfill idx c start horizon (providers w)).
           now injection H as _ <-.
      * intros events. apply emits_bind.
        -- apply emits_for_each. intros e.
           eapply emits_weaken; [| apply emits_handle_event].
           intros [] Hev; try exact I; destruct Hev.
        -- intros _. destruct events; [apply emits_ret | now apply emits_log].
    + intros _. apply emits_bind; [now apply emits_log | intros _; exact IH].
Qed.

Lemma backfill_step (fuel : nat) (c : string) (w : World D P) last d1 :
  latest_transfer_ts c (db w) = (Ok last, d1) ->
  _backfill cfg fuel c w =
  (if backfill_horizon cfg (clock w) <=? backfill_start cfg (clock w) last
   then ret tt
   else backfill_providers cfg fuel c (backfill_start cfg (clock w) last)
          (backfill_horizon cfg (clock w))
          [(_primary_idx w, "primary"%string); ((1 - _primary_idx w)%nat, "fallback"%string)])
    (set_db d1 (emit (CallLatestTs c) w)).
Proof.
  intros Hl. unfold _backfill, bind, now, db_latest_transfer_ts. rewrite Hl.
  destruct (_ <=? _); reflexivity.
Qed.

(** C3. With [T] the store's last timestamp for the chain (if any) and [now]
    the clock when the run starts, [horizon = now - lag_seconds] and
    [start = max(T or (now - window), now - window)], so [start >= T] and
    [start >= now - window]; every historical query of the run is for that
    chain over [[start, horizon)], and when [start >= horizon] the run returns
    at once, having asked the store for [T] and no provider for anything. *)
Theorem backfill_window_plan (fuel : nat) (c : string) (w : World D P) last d1 :
  latest_transfer_ts c (db w) = (Ok last, d1) ->
  let t := clock w in
  let window := backfill_window_hours cfg * 3600000000 in
  let horizon := backfill_horizon cfg t in
  let start := backfill_start cfg t last in
  horizon = t - stream_lag_seconds cfg * 1000000
  /\ start = Z.max (match last with Some T => T | None => t - window end) (t - window)
  /\ (forall T, last = Some T -> T <= start)
  /\ t - window <= start
  /\ (forall r w', _backfill cfg fuel c w = (r, w') ->
        exists tr, trace w' = trace w ++ CallLatestTs c :: tr
                   /\ Forall (backfill_effect c start horizon) tr)
  /\ (horizon <= start ->
      _backfill cfg fuel c w = (Ok tt, set_db d1 (emit (CallLatestTs c) w))).
Proof.
  intros Hl t window horizon start.
  split; [reflexivity |]. split; [reflexivity |].
  split; [intros T ->; unfold start, backfill_start; lia |].
  split; [unfold start, backfill_start, window, backfill_window, timedelta_hours; lia |].
  split.
  - intros r w' Hrun. rewrite (backfill_step fuel c w last d1 Hl) in Hrun.
    fold t horizon start in Hrun.
    destruct (horizon <=? start).
    + injection Hrun as _ <-. exists []. split; [reflexivity | constructor].
    + destruct (emits_backfill_providers _ _ _ _ _ _ _ _ Hrun) as (tr & E & F).
      exists tr. split; [| exact F]. rewrite E. cbn. now rewrite <- app_assoc.
  - intros Hle. rewrite (backfill_step fuel c w last d1 Hl).
    fold t horizon start. apply Z.leb_le in Hle. now rewrite Hle.
Qed.

End Backfill.

Lemma backfill_window_plan_witness :
  exists tr,
    trace (snd (_backfill Sample.cfg 2 "ethereum" Sample.world))
    = CallLatestTs "ethereum" :: tr
    /\ Forall (backfill_effect "ethereum"
                 (Sample.t_now - 24 * 3600000000) (Sample.t_now - 5 * 1000000)) tr.
Proof.
  destruct (backfill_window_plan (HDB := InMemoryDB_DB) (HPR := MockProvider_Providers)
              Sample.cfg 2 "ethereum" Sample.world None InMemoryDB.init eq_refl)
    as (_ & _ & _ & _ & Hcalls & _).
  destruct (Hcalls _ _ (surjective_pairing _)) as (tr & E & F).
  exists tr. split; [exact E | exact F].
Defined.

(** C4. On the code the claim fails in the backfill planner.  The store of
    [Sample.broken_world] raises on [insert_transfer]; the admission
    pipeline lets the error out, but the planner feeds the events inside the
    [try] of its provider loop: the error is caught there and logged, the
    fallback provider is asked for the same window, its copy of the event is
    discarded by the cache, and the run returns normally with nothing stored. *)
Theorem backfill_catches_store_error :
  (exists w', _handle_event Sample.cfg 2 Sample.ev1 Sample.broken_world
              = (Raise (StoreError "write failed"), w'))
  /\ (let r := _backfill Sample.cfg 2 "ethereum" Sample.broken_world in
      fst r = Ok tt
      /\ trace (snd r) =
         [CallLatestTs "ethereum";
          CallRestBackfill 0 "ethereum" (Sample.t_now - 24 * 3600000000)
                           (Sample.t_now - 5 * 1000000);
          CallInsertTransfer Sample.ev1;
          Log "error" "backfill_error";
          CallRestBackfill 1 "ethereum" (Sample.t_now - 24 * 3600000000)
                           (Sample.t_now - 5 * 1000000);
          Log "info" "backfill_done"]
      /\ size (InMemoryDB.transfers (BrokenDB.inner (db (snd r)))) = 0%nat).
Proof.
  split.
  - eexists. vm_compute. reflexivity.
  - vm_compute. repeat split; reflexivity.
Qed.

(** ** The failover stream controller *)

Section Failover.

Context {D : Type} `{HDB : DB D}.
Variable cfg : Config.

Abbreviation m := (swap_period cfg).

Lemma stream_opens_of_app (t1 t2 : list Effect) :
  stream_opens_of (t1 ++ t2) = stream_opens_of t1 ++ stream_opens_of t2.
Proof. apply flat_map_app. Qed.

(** The local variables after [n] failed openings in a row. *)
Lemma failover_next_iter (p f : nat) (n : nat) :
  Nat.iter n (failover_next cfg) (mkFailover p f 0) =
  mkFailover (if Z.even (Z.of_nat n / m) then p else f)
             (if Z.even (Z.of_nat n / m) then f else p)
             (Z.of_nat n mod m).
Proof.
  assert (Hm : 0 < m) by (unfold swap_period; lia).
  induction n as [| n IH].
  - change (Z.of_nat 0) with 0. rewrite Z.div_0_l, Z.mod_0_l by lia. reflexivity.
  - rewrite Nat.iter_succ, IH. unfold failover_next. cbn.
    pose proof (Z.div_mod (Z.of_nat n) m ltac:(lia)) as Hdm.
    pose proof (Z.mod_pos_bound (Z.of_nat n) m Hm) as Hb.
    set (q := Z.of_nat n / m) in *. set (a := Z.of_nat n mod m) in *.
    destruct (Z.leb_spec (retry_max_attempts cfg) (a + 1)) as [Hsw | Hst].
    + assert (Ha : a = m - 1) by (unfold swap_period in *; lia).
      assert (Hq : Z.of_nat (S n) / m = q + 1)
        by (symmetry; apply (Z.div_unique _ _ _ 0); lia).
      assert (Hr : Z.of_nat (S n) mod m = 0)
        by (symmetry; apply (Z.mod_unique _ _ (q + 1)); lia).
      rewrite Hq, Hr. replace (q + 1) with (Z.succ q) by lia.
      rewrite Z.even_succ, <- Z.negb_even.
      destruct (Z.even q); reflexivity.
    + assert (Hlt : a + 1 < m) by (unfold swap_period in *; lia).
      assert (Hq : Z.of_nat (S n) / m = q)
        by (symmetry; apply (Z.div_unique _ _ _ (a + 1)); lia).
      assert (Hr : Z.of_nat (S n) mod m = a + 1)
        by (symmetry; apply (Z.mod_unique _ _ q); lia).
      rewrite Hq, Hr. reflexivity.
Qed.

(** The [except] branch always hands the loop its next state: it logs,
    sleeps for the backoff delay and touches neither provider. *)
Lemma failover_except_runs {P : Type} `{HPR : Providers P}
    (fo : Failover) (w : World D P) :
  exists w',
    failover_except cfg fo w = (Ok (failover_next cfg fo), w')
    /\ providers w' = providers w
    /\ _primary_idx w' = _primary_idx w
    /\ stream_opens_of (trace w') = stream_opens_of (trace w)
    /\ exists tr, trace w' =
         trace w ++ Log "error" "stream_error"
                 :: Sleep (jitter_delay_value (retry_base_seconds cfg) (fo_attempt fo)
                             (retry_max_seconds cfg)
                             (0 + (retry_base_seconds cfg - 0) * rand_src w (rand_pos w)))
                 :: tr.
Proof.
  unfold failover_except, bind, _jitter_delay, uniform, log, sleep, ret, bind.
  destruct (retry_max_attempts cfg <=? fo_attempt fo + 1);
    (eexists; split; [reflexivity |]; cbn;
     split; [reflexivity |]; split; [reflexivity |];
     split; [rewrite !stream_opens_of_app; cbn; now rewrite !app_nil_r |];
     eexists; rewrite <- !app_assoc; reflexivity).
Qed.

Lemma failover_loop_step {P : Type} `{HPR : Providers P}
    (fuel : nat) (c : string) (fo : Failover) (w : World D P) :
  failover_loop cfg (S fuel) c fo w =
  match bind (log "info" "stream_connect")
             (fun _ => provider_stream_transfers (fo_primary fo) c) w with
  | (Ok s, w') => (Ok (s, fo), w')
  | (Raise _, w') =>
      bind (failover_except cfg fo) (fun fo' => failover_loop cfg fuel c fo') w'
  end.
Proof. reflexivity. Qed.

Lemma failover_loop_runs (c : string) (n k : nat) :
  forall (fo : Failover) (w : World D FailingProviders.t),
    FailingProviders.open_failures (providers w) = n ->
    exists w',
      failover_loop cfg (S n + k) c fo w
      = (Ok (FailingProviders.delivered (providers w), Nat.iter n (failover_next cfg) fo), w')
      /\ stream_opens_of (trace w')
         = stream_opens_of (trace w)
           ++ List.map (fun j => fo_primary (Nat.iter j (failover_next cfg) fo)) (seq 0 (S n)).
Proof.
  induction n as [| n IH]; intros fo w Hn.
  - rewrite Nat.add_succ_l, failover_loop_step.
    unfold bind, log, provider_stream_transfers. cbn.
    unfold FailingProviders.stream_transfers. rewrite Hn.
    eexists. split; [reflexivity |]. cbn.
    rewrite !stream_opens_of_app. cbn. now rewrite app_nil_r.
  - rewrite Nat.add_succ_l, failover_loop_step.
    unfold bind at 1, log, provider_stream_transfers.
    cbn [providers emit stream_transfers FailingProviders_Providers].
    unfold FailingProviders.stream_transfers at 1. rewrite Hn.
    match goal with
    | |- context [bind (failover_except cfg fo) _ ?w1] =>
        destruct (failover_except_runs fo w1) as (w2 & Hex & Hp & _ & Htr & _);
        rewrite (bind_step _ _ _ _ _ Hex)
    end.
    cbn [providers set_providers emit trace] in Hp, Htr.
    destruct (IH (failover_next cfg fo) w2) as (w' & Hrun & Hopens).
    { rewrite Hp. reflexivity. }
    exists w'. split.
    + rewrite Hrun, Hp, Nat.iter_succ_r. reflexivity.
    + rewrite Hopens, Htr, !stream_opens_of_app. cbn [stream_opens_of flat_map].
      rewrite app_nil_r, <- app_assoc. f_equal.
      change (seq 0 (S (S n))) with (0%nat :: seq 1 (S n)).
      rewrite <- seq_shift, List.map_cons, List.map_map. cbn [Nat.iter app].
      f_equal. apply List.map_ext. intros j. now rewrite Nat.iter_succ_r.
Qed.

(** What the loop is written to do, for providers whose call of
    [stream_transfers] itself raises (none of the repository does).  With [m]
    the configured [retry_max_attempts] (a value below one behaves as one),
    when the next [n] calls raise the loop makes [n + 1] of them and hands
    over the live sequence of the last one.  Call [j] (from zero) asks the
    service's primary provider when [j / m] is even and the other one when
    it is odd, and the attempt counter is [n mod m]. *)
Lemma failover_swap (c : string) (n k : nat) (w : World D FailingProviders.t) :
  FailingProviders.open_failures (providers w) = n ->
  (exists w' fo,
      _stream_with_failover cfg (S n + k) c w
      = (Ok (FailingProviders.delivered (providers w), fo), w')
      /\ stream_opens_of (trace w')
         = stream_opens_of (trace w)
           ++ List.map (fun j => provider_at (_primary_idx w) m (Z.of_nat j)) (seq 0 (S n))
      /\ fo_primary fo = provider_at (_primary_idx w) m (Z.of_nat n)
      /\ fo_attempt fo = Z.of_nat n mod m)
  /\ (forall j, 0 <= j < m -> provider_at (_primary_idx w) m j = _primary_idx w)
  /\ provider_at (_primary_idx w) m m = (1 - _primary_idx w)%nat
  /\ m mod m = 0.
Proof.
  intros Hn.
  assert (Hm : 0 < m) by (unfold swap_period; lia).
  split; [| split; [| split]].
  - unfold _stream_with_failover, bind, _select_providers. cbn [fst snd].
    destruct (failover_loop_runs c n k
                (mkFailover (_primary_idx w) (1 - _primary_idx w) 0) w Hn)
      as (w' & Hrun & Hopens).
    exists w', (Nat.iter n (failover_next cfg)
                  (mkFailover (_primary_idx w) (1 - _primary_idx w) 0)).
    split; [exact Hrun |]. split.
    + rewrite Hopens. f_equal. apply List.map_ext. intros j.
      rewrite failover_next_iter. reflexivity.
    + rewrite failover_next_iter. split; reflexivity.
  - intros j Hj. unfold provider_at. rewrite Z.div_small by lia. reflexivity.
  - unfold provider_at. rewrite Z.div_same by lia. reflexivity.
  - apply Z.mod_same. lia.
Qed.

End Failover.

Lemma failover_swap_witness :
  stream_opens_of
    (trace (snd (_stream_with_failover Sample.cfg 5 "ethereum" (Sample.failing_world 4))))
  = [0; 0; 0; 1; 1]%nat.
Proof.
  destruct (failover_swap Sample.cfg "ethereum" 4 0 (Sample.failing_world 4) eq_refl)
    as ((w' & fo & Hrun & Hopens & _) & _).
  change (S 4 + 0)%nat with 5%nat in Hrun.
  rewrite Hrun. exact Hopens.
Defined.

(** The same store error met while the live sequence is consumed: thrown
    into the controller at its [yield], it is caught by the [except] branch,
    which sleeps for the backoff delay and goes round the loop to open a live
    sequence again; the chain task ends with the context manager's
    [RuntimeError], not with the store's error. *)
Lemma run_chain_store_error_in_stream :
  let r := _run_chain Sample.cfg 2 2 "ethereum" Sample.broken_live_world in
  fst r = Raise (RuntimeError "generator didn't stop after athrow()")
  /\ trace (snd r) =
     [CallLatestTs "ethereum";
      CallRestBackfill 0 "ethereum" (Sample.t_now - 24 * 3600000000)
                       (Sample.t_now - 5 * 1000000);
      Log "info" "stream_connect";
      CallStreamTransfers 0 "ethereum";
      CallInsertTransfer Sample.ev_live;
      Log "error" "stream_error";
      Sleep (jitter_delay_value (1 # 100) 0 (5 # 100) ((1 # 100) * (1 # 2)));
      Log "info" "stream_connect";
      CallStreamTransfers 0 "ethereum"].
Proof.
  vm_compute. split; reflexivity.
Qed.

(** * Further properties of the code *)

(** ** The in-memory store *)

Section InMemoryStore.

(** X1. [insert_transfer] keeps the first row of a key: once an event has
    been submitted to the store, whatever that call returned, a later event
    with the same key is refused -- the call returns false and the store is
    left exactly as it was. *)
Theorem insert_transfer_idempotent (d : InMemoryDB.t) (e e' : TransferEvent) :
  InMemoryDB._tkey e' = InMemoryDB._tkey e ->
  let d1 := snd (InMemoryDB.insert_transfer e d) in
  InMemoryDB.insert_transfer e' d1 = (Ok false, d1)
  /\ (fst (InMemoryDB.insert_transfer e d) = Ok true
      <-> InMemoryDB.transfers d !! InMemoryDB._tkey e = None)
  /\ InMemoryDB.transfers d1 !! InMemoryDB._tkey e
     = Some (default e (InMemoryDB.transfers d !! InMemoryDB._tkey e)).
Proof.
  intros Hk d1. unfold d1, InMemoryDB.insert_transfer. rewrite Hk.
  destruct (InMemoryDB.transfers d !! InMemoryDB._tkey e) as [e0 |] eqn:Hl; cbn.
  - rewrite Hl. repeat split; intros; discriminate.
  - rewrite lookup_insert_eq. repeat split; reflexivity.
Qed.

Lemma latest_ts_is_max_call (d : InMemoryDB.t) (op : db_call) :
  (forall k e, InMemoryDB.transfers d !! k = Some e -> k = InMemoryDB._tkey e) ->
  (forall c, latest_ts_is_max d c) ->
  (forall k e, InMemoryDB.transfers (run_call d op) !! k = Some e -> k = InMemoryDB._tkey e)
  /\ (forall c, latest_ts_is_max (run_call d op) c).
Proof.
  intros Hkey Hmax.
  destruct op as [e | b | c0 | addr c0 label ety cex meta]; simpl;
    try (split; assumption).
  unfold InMemoryDB.insert_transfer.
  destruct (InMemoryDB.transfers d !! InMemoryDB._tkey e) as [e0 |] eqn:Hl; simpl;
    [split; assumption |].
  split.
  - intros k e1 H. destruct (decide (InMemoryDB._tkey e = k)) as [<- | Hne].
    + rewrite lookup_insert_eq in H. now injection H as <-.
    + rewrite lookup_insert_ne in H by exact Hne. now apply Hkey.
  - intros c. pose proof (Hmax c) as Hc. unfold latest_ts_is_max in *. cbn.
    assert (Hold : forall k e1, <[InMemoryDB._tkey e := e]> (InMemoryDB.transfers d) !! k
                                = Some e1 ->
                   e1 = e \/ InMemoryDB.transfers d !! k = Some e1).
    { intros k e1 H. destruct (decide (InMemoryDB._tkey e = k)) as [<- | Hne].
      - rewrite lookup_insert_eq in H. left. now injection H.
      - rewrite lookup_insert_ne in H by exact Hne. now right. }
    assert (Hnew : <[InMemoryDB._tkey e := e]> (InMemoryDB.transfers d)
                   !! InMemoryDB._tkey e = Some e) by apply lookup_insert_eq.
    assert (Hkeep : forall k e1, InMemoryDB.transfers d !! k = Some e1 ->
                    <[InMemoryDB._tkey e := e]> (InMemoryDB.transfers d) !! k = Some e1).
    { intros k e1 H. rewrite lookup_insert_ne; [exact H |]. congruence. }
    destruct (decide (chain e = c)) as [Hce | Hce].
    + subst c.
      destruct (InMemoryDB._latest_ts d !! chain e) as [prev |] eqn:Hp.
      * destruct Hc as ((k0 & e0 & Hs0 & Hc0 & Ht0) & Hle).
        destruct (Z.ltb_spec prev (ts e)) as [Hlt | Hge].
        -- rewrite lookup_insert_eq. split.
           ++ exists (InMemoryDB._tkey e), e. repeat split. exact Hnew.
           ++ intros k e1 H Hch. destruct (Hold k e1 H) as [-> | H1]; [lia |].
              specialize (Hle k e1 H1 Hch). lia.
        -- rewrite Hp. split.
           ++ exists k0, e0. repeat split; try assumption. now apply Hkeep.
           ++ intros k e1 H Hch. destruct (Hold k e1 H) as [-> | H1]; [lia |].
              exact (Hle k e1 H1 Hch).
      * rewrite lookup_insert_eq. split.
        -- exists (InMemoryDB._tkey e), e. repeat split. exact Hnew.
        -- intros k e1 H Hch. destruct (Hold k e1 H) as [-> | H1]; [lia |].
           now destruct (Hc k e1 H1).
    + assert (Hsame : (match InMemoryDB._latest_ts d !! chain e with
                       | Some prev => if prev <? ts e
                                      then <[chain e := ts e]> (InMemoryDB._latest_ts d)
                                      else InMemoryDB._latest_ts d
                       | None => <[chain e := ts e]> (InMemoryDB._latest_ts d)
                       end) !! c = InMemoryDB._latest_ts d !! c).
      { destruct (InMemoryDB._latest_ts d !! chain e) as [prev |];
          [destruct (prev <? ts e) |];
          first [reflexivity | now apply lookup_insert_ne]. }
      rewrite Hsame.
      destruct (InMemoryDB._latest_ts d !! c) as [t |].
      * destruct Hc as ((k0 & e0 & Hs0 & Hc0 & Ht0) & Hle). split.
        -- exists k0, e0. repeat split; try assumption. now apply Hkeep.
        -- intros k e1 H Hch. destruct (Hold k e1 H) as [-> | H1]; [contradiction |].
           exact (Hle k e1 H1 Hch).
      * intros k e1 H. destruct (Hold k e1 H) as [-> | H1]; [exact Hce |].
        exact (Hc k e1 H1).
Qed.

(** X2. After any sequence of calls on a store that started empty, the
    latest timestamp the store reports for a chain is none exactly when it
    holds no transfer of that chain, and otherwise the greatest timestamp
    among its stored transfers of that chain. *)
Theorem latest_transfer_ts_is_max (ops : list db_call) (c : string) :
  let d := run_calls ops InMemoryDB.init in
  fst (InMemoryDB.latest_transfer_ts c d) = Ok (InMemoryDB._latest_ts d !! c)
  /\ latest_ts_is_max d c.
Proof.
  intros d. split; [reflexivity |]. revert c.
  assert (Hinv : (forall k e, InMemoryDB.transfers d !! k = Some e -> k = InMemoryDB._tkey e)
                 /\ (forall c, latest_ts_is_max d c)); [| exact (proj2 Hinv)].
  unfold d, run_calls.
  assert (Hgen : forall d0,
             (forall k e, InMemoryDB.transfers d0 !! k = Some e -> k = InMemoryDB._tkey e)
             /\ (forall c, latest_ts_is_max d0 c) ->
             (forall k e, InMemoryDB.transfers (fold_left run_call ops d0) !! k = Some e ->
                          k = InMemoryDB._tkey e)
             /\ (forall c, latest_ts_is_max (fold_left run_call ops d0) c)).
  { induction ops as [| op ops IH]; intros d0 H0; simpl; [exact H0 |].
    apply IH. destruct H0 as [H1 H2]. now apply latest_ts_is_max_call. }
  apply Hgen. split.
  - intros k e H. cbn in H. now rewrite lookup_empty in H.
  - intros c0. unfold latest_ts_is_max. cbn. rewrite lookup_empty.
    intros k e H. now rewrite lookup_empty in H.
Qed.

Lemma last_upsert_cons (k : string) (b : BalanceUpdate) (bs : list BalanceUpdate) :
  last_upsert k (b :: bs) =
  match last_upsert k bs with
  | Some b' => Some b'
  | None => if decide (InMemoryDB._bkey b = k) then Some b else None
  end.
Proof.
  unfold last_upsert. simpl.
  generalize (if decide (InMemoryDB._bkey b = k) then Some b else None) as acc0.
  assert (Hgen : forall acc,
             fold_left (fun acc b0 => if decide (InMemoryDB._bkey b0 = k) then Some b0 else acc)
                       bs acc
             = match fold_left (fun acc b0 => if decide (InMemoryDB._bkey b0 = k)
                                              then Some b0 else acc) bs None with
               | Some b' => Some b'
               | None => acc
               end).
  { induction bs as [| b1 bs IH]; intros acc; simpl; [reflexivity |].
    rewrite (IH (if decide _ then _ else acc)), (IH (if decide _ then _ else None)).
    destruct (fold_left _ bs None); [reflexivity |].
    destruct (decide _); reflexivity. }
  intros acc0. apply Hgen.
Qed.

(** X3. [upsert_balance] keeps the last record of a key: after a sequence
    of upserts the row under a key is the last record of the sequence with
    that key, and the row the store had before when there is none. *)
Theorem upsert_balance_last_wins (bs : list BalanceUpdate) (d : InMemoryDB.t) (k : string) :
  InMemoryDB.balances (run_calls (List.map DoUpsertBalance bs) d) !! k
  = match last_upsert k bs with
    | Some b => Some b
    | None => InMemoryDB.balances d !! k
    end.
Proof.
  revert d. induction bs as [| b bs IH]; intros d; [reflexivity |].
  unfold run_calls in *. simpl. rewrite IH, last_upsert_cons.
  destruct (last_upsert k bs); [reflexivity |]. cbn.
  destruct (decide (InMemoryDB._bkey b = k)) as [<- | Hne].
  - apply lookup_insert_eq.
  - now apply lookup_insert_ne.
Qed.

End InMemoryStore.

Lemma insert_transfer_idempotent_witness :
  InMemoryDB.insert_transfer Sample.ev2
    (snd (InMemoryDB.insert_transfer Sample.ev1 InMemoryDB.init))
  = (Ok false, snd (InMemoryDB.insert_transfer Sample.ev1 InMemoryDB.init)).
Proof.
  exact (proj1 (insert_transfer_idempotent InMemoryDB.init Sample.ev1 Sample.ev2
                  ltac:(vm_compute; reflexivity))).
Defined.

(** ** More on the admission pipeline *)

Section AdmissionMore.

Context {D P : Type} `{HDB : DB D} `{HPR : Providers P}.
Variable cfg : Config.

Lemma handle_event_unfold (fuel : nat) (e : TransferEvent) (w : World D P) :
  _handle_event cfg fuel e w =
  if decide (_event_key e ∈ _seen_cache w) then (Ok tt, w)
  else bind (_rate_limit cfg fuel) (fun _ => admission_tail e)
            (set_seen_cache ({[_event_key e]} ∪ _seen_cache w) w).
Proof. reflexivity. Qed.

Lemma admission_tail_untouched {X} (f : World D P -> X) (e : TransferEvent) :
  untouched f -> preserves f (@admission_tail D P _ e).
Proof.
  intros [Hdb Hpr Hcn Hem].
  assert (Hins : forall e0, preserves f (@db_insert_transfer D P _ e0)).
  { intros e0 w r w' H. unfold db_insert_transfer in H.
    destruct (insert_transfer e0 (db w)). injection H as _ <-. now rewrite Hdb, Hem. }
  assert (Hups : forall b, preserves f (@db_upsert_balance D P _ b)).
  { intros b w r w' H. unfold db_upsert_balance in H.
    destruct (upsert_balance b (db w)). injection H as _ <-. now rewrite Hdb, Hem. }
  assert (Hinc : forall n v c, preserves f (@metrics_inc D P n v c)).
  { intros n v c w r w' H. injection H as _ <-. now rewrite Hem, Hcn. }
  unfold admission_tail.
  apply preserves_bind; [apply Hins | intros ins].
  apply preserves_bind.
  - destruct ins; [| apply preserves_ret].
    apply preserves_bind; [apply Hups | intros _].
    apply preserves_bind; [apply Hups | intros _]. apply Hinc.
  - intros _. apply preserves_bind; [apply Hinc | intros _].
    apply preserves_bind.
    + intros w r w' H. now injection H as _ <-.
    + intros t w r w' H. injection H as _ <-. now rewrite Hem.
Qed.

Lemma untouched_seen_cache : untouched (@_seen_cache D P).
Proof. split; reflexivity. Qed.

Lemma handle_event_key_cached (fuel : nat) (e : TransferEvent) (w : World D P) :
  _event_key e ∈ _seen_cache (snd (_handle_event cfg fuel e w)).
Proof.
  rewrite handle_event_unfold.
  destruct (decide _) as [Hin | _]; [exact Hin |].
  match goal with |- context [bind ?m ?k ?w0] => destruct (bind m k w0) as [r w'] eqn:H end.
  assert (Hp : preserves _seen_cache
                 (bind (_rate_limit cfg fuel) (fun _ => @admission_tail D P _ e))).
  { apply preserves_bind; [apply preserves_rate_limit_cache | intros _].
    apply admission_tail_untouched, untouched_seen_cache. }
  simpl. rewrite (Hp _ _ _ H). cbn.
  apply elem_of_union. left. now apply elem_of_singleton.
Qed.

(** X4. The cache compares identities without regard to letter case: once
    an event has been submitted, whatever became of it, an event whose
    (chain, tx_hash, from, to) differ from its own in letter case only is
    discarded -- the submission returns and changes nothing. *)
Theorem cache_dedup_ignores_case (fuel fuel' : nat) (e1 e2 : TransferEvent) (w : World D P) :
  lowered_identity e1 = lowered_identity e2 ->
  let w1 := snd (_handle_event cfg fuel e1 w) in
  _handle_event cfg fuel' e2 w1 = (Ok tt, w1).
Proof.
  intros Hid w1. apply handle_event_cached.
  rewrite <- (event_key_of_identity e1 e2 Hid). apply handle_event_key_cached.
Qed.

Lemma inserts_of_app (t1 t2 : list Effect) :
  inserts_of (t1 ++ t2) = inserts_of t1 ++ inserts_of t2.
Proof. apply flat_map_app. Qed.

Lemma inserts_of_sleeps (tr : list Effect) :
  Forall (fun ev => exists q, ev = Sleep q) tr -> inserts_of tr = [].
Proof.
  induction 1 as [| ev tr [q ->] _ IH]; [reflexivity | exact IH].
Qed.

Lemma handle_event_fresh_summary (fuel : nat) (e : TransferEvent) (w w' : World D P) :
  _event_key e ∉ _seen_cache w ->
  _handle_event cfg fuel e w = (Ok tt, w') ->
  inserts_of (trace w') = inserts_of (trace w) ++ [e]
  /\ _seen_cache w' = {[_event_key e]} ∪ _seen_cache w.
Proof.
  intros Hfresh Hrun.
  destruct (handle_event_returns cfg fuel e w w' Hfresh Hrun)
    as (w1 & ins & d2 & w3 & Hrl & _ & Hlegs & ->).
  destruct (rate_limit_frame cfg fuel _ _ _ Hrl) as (_ & _ & Ec & _ & _ & tr & Etr & Fsl).
  cbn in Ec, Etr.
  destruct ins.
  - destruct Hlegs as (d3 & d4 & _ & _ & ->). cbn. split; [| exact Ec].
    rewrite Etr, !inserts_of_app, (inserts_of_sleeps tr Fsl). cbn.
    now rewrite !app_nil_r.
  - rewrite Hlegs. cbn. split; [| exact Ec].
    rewrite Etr, !inserts_of_app, (inserts_of_sleeps tr Fsl). cbn.
    now rewrite !app_nil_r.
Qed.

(** X5. A batch of events fed through the pipeline reaches the store in
    arrival order, one [insert_transfer] per key not seen before: when the
    batch is handled without an error, the transfers handed to the store are
    the first occurrences, in order, of the keys that were not cached. *)
Theorem admission_order (fuel : nat) (es : list TransferEvent) (w w' : World D P) :
  for_each (_handle_event cfg fuel) es w = (Ok tt, w') ->
  inserts_of (trace w') = inserts_of (trace w) ++ admitted (_seen_cache w) es.
Proof.
  revert w. induction es as [| e es IH]; intros w Hrun.
  - injection Hrun as <-. simpl. now rewrite app_nil_r.
  - simpl in Hrun. apply bind_Ok in Hrun as ([] & w1 & He & Hrest).
    specialize (IH _ Hrest). simpl.
    destruct (decide (_event_key e ∈ _seen_cache w)) as [Hin | Hfresh].
    + rewrite (handle_event_cached cfg fuel e w Hin) in He. injection He as <-.
      exact IH.
    + destruct (handle_event_fresh_summary fuel e w w1 Hfresh He) as (Hi & Hc).
      rewrite IH, Hi, Hc, <- app_assoc. reflexivity.
Qed.

(** X6. [events_out] counts the new rows: an admission that returns leaves
    the counter alone when the store reports the transfer as already
    present -- then no balance record is written either and the store is as
    [insert_transfer] left it -- and adds one to it when the row is new. *)
Theorem events_out_counts_new_rows (fuel : nat) (e : TransferEvent) (w w' : World D P)
    (ins : bool) (d2 : D) :
  (_event_key e ∉ _seen_cache w) ->
  insert_transfer e (db w) = (Ok ins, d2) ->
  _handle_event cfg fuel e w = (Ok tt, w') ->
  _counters w' !! "events_out"%string
  = (if ins then Some (default 0 (_counters w !! "events_out"%string) + 1)
     else _counters w !! "events_out"%string)
  /\ (ins = false -> upserts_of (trace w') = upserts_of (trace w) /\ db w' = d2).
Proof.
  intros Hfresh Hins Hrun.
  destruct (handle_event_returns cfg fuel e w w' Hfresh Hrun)
    as (w1 & ins' & d2' & w3 & Hrl & Hdb & Hlegs & ->).
  destruct (rate_limit_frame cfg fuel _ _ _ Hrl)
    as (Edb & _ & _ & Ecnt & _ & tr & Etr & Fsl).
  cbn in Edb, Ecnt, Etr. rewrite Edb, Hins in Hdb. injection Hdb as <- <-.
  destruct ins.
  - destruct Hlegs as (d3 & d4 & _ & _ & ->). cbn.
    split; [| discriminate].
    rewrite lookup_insert_ne by discriminate.
    rewrite lookup_insert_eq, Ecnt. reflexivity.
  - rewrite Hlegs. cbn. split.
    + rewrite lookup_insert_ne by discriminate. now rewrite Ecnt.
    + intros _. split; [| reflexivity].
      rewrite Etr, !upserts_of_app, (upserts_of_sleeps tr Fsl). cbn.
      now rewrite !app_nil_r.
Qed.

(** *** The rate limiter across submissions *)

Lemma rate_limit_keeps_bucket (fuel : nat) (w : World D P) :
  bucket_ok cfg w -> bucket_ok cfg (snd (_rate_limit cfg fuel w)).
Proof.
  revert w. induction fuel as [| fuel IH]; intros w Hok; [exact Hok |].
  rewrite rate_limit_step. cbv zeta.
  set (refill := py_int _).
  set (w1 := if 0 <? refill then _ else w).
  assert (Hw1 : bucket_ok cfg w1).
  { unfold w1. destruct (Z.ltb_spec 0 refill) as [Hpos | _]; [| exact Hok].
    destruct Hok as [[Hlo Hhi] Hclk]. unfold bucket_ok. cbn. lia. }
  destruct (Z.eqb_spec (_rate_tokens w1) 0) as [Hz | Hnz].
  - destruct (rate_limit_per_sec cfg =? 0); [exact Hw1 |].
    apply IH. destruct Hw1 as [Hb Hclk]. unfold bucket_ok. cbn. lia.
  - destruct Hw1 as [Hb Hclk]. unfold bucket_ok. cbn. lia.
Qed.

Lemma untouched_bucket :
  untouched (fun w : World D P => (_rate_tokens w, _last_refill w, clock w)).
Proof. split; reflexivity. Qed.

Lemma handle_event_keeps_bucket (fuel : nat) (e : TransferEvent) (w : World D P) :
  bucket_ok cfg w -> bucket_ok cfg (snd (_handle_event cfg fuel e w)).
Proof.
  intros Hok. rewrite handle_event_unfold.
  destruct (decide _) as [_ | _]; [exact Hok |].
  unfold bind.
  match goal with |- context [_rate_limit cfg fuel ?w0] =>
    pose proof (rate_limit_keeps_bucket fuel w0 Hok) as Hrl;
    destruct (_rate_limit cfg fuel w0) as [[[] | x] w1]
  end; [| exact Hrl].
  destruct (admission_tail e w1) as [r w'] eqn:Ht.
  pose proof (admission_tail_untouched _ e untouched_bucket _ _ _ Ht) as Hf.
  injection Hf as Ht1 Ht2 Ht3.
  unfold bucket_ok in *. cbn in *. rewrite Ht1, Ht2, Ht3. exact Hrl.
Qed.

(** X7. Whatever is submitted, and whatever each submission does, the
    bucket of the rate limiter stays between zero and the configured rate
    and the last refill never lies after the clock. *)
Theorem bucket_stays_within_bounds (fuel : nat) (es : list TransferEvent) (w : World D P) :
  bucket_ok cfg w -> bucket_ok cfg (submit_all cfg fuel es w).
Proof.
  revert w. induction es as [| e es IH]; intros w Hok; [exact Hok |].
  simpl. apply IH, handle_event_keeps_bucket, Hok.
Qed.

Lemma rate_limit_immediate (fuel : nat) (w : World D P) :
  _rate_tokens w <> 0 -> _last_refill w = clock w ->
  _rate_limit cfg (S fuel) w = (Ok tt, set_rate_tokens (_rate_tokens w - 1) w).
Proof.
  intros Hnz Hlast. rewrite rate_limit_step, Hlast, Z.sub_diag.
  rewrite seconds_times_rate, Z.mul_0_l.
  change (py_int (0 # 1000000)) with 0. cbv zeta.
  change (0 <? 0) with false. cbv iota.
  destruct (Z.eqb_spec (_rate_tokens w) 0); [contradiction | reflexivity].
Qed.

(** X8. A bucket refilled at this very instant serves a burst without
    suspending: [k] acquisitions in a row, for [k] up to the tokens in the
    bucket, all return at once, take [k] tokens and neither sleep nor move
    the clock. *)
Theorem bucket_serves_burst (fuel k : nat) (w : World D P) :
  Z.of_nat k <= _rate_tokens w ->
  _last_refill w = clock w ->
  exists w',
    for_each (fun _ : unit => _rate_limit cfg (S fuel)) (repeat tt k) w = (Ok tt, w')
    /\ _rate_tokens w' = _rate_tokens w - Z.of_nat k
    /\ trace w' = trace w
    /\ clock w' = clock w
    /\ _last_refill w' = _last_refill w.
Proof.
  revert w. induction k as [| k IH]; intros w Hk Hlast.
  - exists w. cbn. repeat split; lia.
  - cbn [repeat for_each].
    rewrite (bind_step _ _ _ _ _ (rate_limit_immediate fuel w ltac:(lia) Hlast)).
    destruct (IH (set_rate_tokens (_rate_tokens w - 1) w)) as (w' & Hrun & Ht & Htr & Hc & Hl).
    + cbn. lia.
    + cbn. exact Hlast.
    + exists w'. split; [exact Hrun |]. cbn in Ht, Htr, Hc, Hl.
      repeat split; try assumption. lia.
Qed.

(** X9. [Metrics.inc] accumulates per name: after a series of increments
    of one counter its value, read with default zero, has grown by their
    sum, and no other counter has changed. *)
Theorem metrics_inc_accumulates (name c : string) (vs : list Z) (w : World D P) :
  let w' := snd (for_each (fun v => metrics_inc name v c) vs w) in
  default 0 (_counters w' !! name) = default 0 (_counters w !! name) + fold_right Z.add 0 vs
  /\ forall other, other <> name -> _counters w' !! other = _counters w !! other.
Proof.
  revert w. induction vs as [| v vs IH]; intros w.
  - cbn. split; [lia | reflexivity].
  - set (w1 := emit (MetricInc name (default 0 (_counters w !! name) + v) c)
                 (set_counters (<[name := default 0 (_counters w !! name) + v]>
                                  (_counters w)) w)).
    change (for_each (fun v0 => metrics_inc name v0 c) (v :: vs) w)
      with (for_each (fun v0 => metrics_inc name v0 c) vs w1).
    destruct (IH w1) as [Hs Ho]. cbv zeta in *.
    split.
    + rewrite Hs. unfold w1. cbn. rewrite lookup_insert_eq. cbn. lia.
    + intros other Hne. rewrite (Ho other Hne). unfold w1. cbn.
      now apply lookup_insert_ne.
Qed.

End AdmissionMore.

Lemma cache_dedup_ignores_case_witness :
  _handle_event Sample.cfg 2 Sample.ev1_upper
    (snd (_handle_event Sample.cfg 2 Sample.ev1 Sample.world))
  = (Ok tt, snd (_handle_event Sample.cfg 2 Sample.ev1 Sample.world)).
Proof.
  exact (cache_dedup_ignores_case Sample.cfg 2 2 Sample.ev1 Sample.ev1_upper Sample.world
           eq_refl).
Defined.

Lemma admission_order_witness :
  inserts_of (trace (snd (for_each (_handle_event Sample.cfg 2)
                            [Sample.ev1; Sample.ev2; Sample.ev_self] Sample.world)))
  = [Sample.ev1; Sample.ev_self].
Proof.
  refine (admission_order Sample.cfg 2 [Sample.ev1; Sample.ev2; Sample.ev_self]
            Sample.world _ _).
  vm_compute. reflexivity.
Defined.

Lemma events_out_counts_new_rows_witness :
  _counters (snd (_handle_event Sample.cfg 2 Sample.ev1 restarted_world))
    !! "events_out"%string = None.
Proof.
  refine (proj1 (events_out_counts_new_rows Sample.cfg 2 Sample.ev1 restarted_world
                   (snd (_handle_event Sample.cfg 2 Sample.ev1 restarted_world))
                   false (db restarted_world) _ _ _)).
  - vm_compute. discriminate.
  - vm_compute. reflexivity.
  - vm_compute. reflexivity.
Defined.

Lemma bucket_stays_within_bounds_witness :
  bucket_ok Sample.cfg (submit_all Sample.cfg 2 [Sample.ev1; Sample.ev2] Sample.world).
Proof.
  apply (bucket_stays_within_bounds Sample.cfg 2 [Sample.ev1; Sample.ev2] Sample.world).
  vm_compute. repeat split; discriminate.
Defined.

Lemma bucket_serves_burst_witness :
  exists w',
    for_each (fun _ : unit => _rate_limit Sample.cfg 1) (repeat tt 100) Sample.world
    = (Ok tt, w')
    /\ _rate_tokens w' = 0.
Proof.
  destruct (bucket_serves_burst Sample.cfg 0 100 Sample.world
              ltac:(vm_compute; discriminate) eq_refl)
    as (w' & Hrun & Ht & _).
  exists w'. split; [exact Hrun | exact Ht].
Defined.

(** ** More on the backfill planner *)

Section BackfillMore.

Context {D P : Type} `{HDB : DB D} `{HPR : Providers P}.
Variable cfg : Config.

Lemma backfill_calls_of_app (t1 t2 : list Effect) :
  backfill_calls_of (t1 ++ t2) = backfill_calls_of t1 ++ backfill_calls_of t2.
Proof. apply flat_map_app. Qed.

Lemma backfill_calls_of_admission (tr : list Effect) :
  Forall admission_effect tr -> backfill_calls_of tr = [].
Proof.
  induction 1 as [| ev tr Hev _ IH]; [reflexivity |].
  destruct ev; try destruct Hev; exact IH.
Qed.

(** X10. When both providers raise on the historical query the window is
    skipped: each is asked once, the primary first, each failure is logged,
    and the run returns normally, leaving the store as the timestamp query
    left it and the cache as it was. *)
Theorem backfill_skips_window_when_both_fail
    (fuel : nat) (c : string) (w : World D P) last d1 x1 p1 x2 p2 :
  latest_transfer_ts c (db w) = (Ok last, d1) ->
  backfill_start cfg (clock w) last < backfill_horizon cfg (clock w) ->
  rest_backfill (_primary_idx w) c (backfill_start cfg (clock w) last)
                (backfill_horizon cfg (clock w)) (providers w) = (Raise x1, p1) ->
  rest_backfill (1 - _primary_idx w)%nat c (backfill_start cfg (clock w) last)
                (backfill_horizon cfg (clock w)) p1 = (Raise x2, p2) ->
  x1 <> LoopFuel -> x2 <> LoopFuel ->
  exists w',
    _backfill cfg fuel c w = (Ok tt, w')
    /\ trace w' =
       trace w ++
       [CallLatestTs c;
        CallRestBackfill (_primary_idx w) c (backfill_start cfg (clock w) last)
                         (backfill_horizon cfg (clock w));
        Log "error" "backfill_error";
        CallRestBackfill (1 - _primary_idx w)%nat c (backfill_start cfg (clock w) last)
                         (backfill_horizon cfg (clock w));
        Log "error" "backfill_error"]
    /\ db w' = d1
    /\ _seen_cache w' = _seen_cache w.
Proof.
  intros Hl Hwin H1 H2 Hx1 Hx2.
  rewrite (backfill_step cfg fuel c w last d1 Hl).
  destruct (Z.leb_spec (backfill_horizon cfg (clock w)) (backfill_start cfg (clock w) last))
    as [Hbad | _]; [lia |].
  cbn [backfill_providers].
  unfold try_except at 1, bind at 1, provider_rest_backfill at 1.
  cbn [providers set_db emit]. rewrite H1.
  assert (Hnext : forall wa : World D P,
             providers wa = p1 ->
             exists w',
               try_except
                 (bind (provider_rest_backfill (1 - _primary_idx w) c
                          (backfill_start cfg (clock w) last)
                          (backfill_horizon cfg (clock w)))
                       (fun events =>
                          bind (for_each (_handle_event cfg fuel) events)
                               (fun _ => match events with
                                         | [] => ret tt
                                         | _ => log "info" "backfill_done"
                                         end)))
                 (fun _ => bind (log "error" "backfill_error")
                                (fun _ => backfill_providers cfg fuel c
                                            (backfill_start cfg (clock w) last)
                                            (backfill_horizon cfg (clock w)) []))
                 wa
               = (Ok tt, w')
               /\ trace w' = trace wa ++
                    [CallRestBackfill (1 - _primary_idx w) c
                                      (backfill_start cfg (clock w) last)
                                      (backfill_horizon cfg (clock w));
                     Log "error" "backfill_error"]
               /\ db w' = db wa /\ _seen_cache w' = _seen_cache wa).
  { intros wa Hp. unfold try_except, bind at 1, provider_rest_backfill.
    rewrite Hp, H2.
    destruct x2; try contradiction;
      (eexists; split; [reflexivity |]; cbn; rewrite <- app_assoc;
       repeat split; reflexivity). }
  destruct x1; try contradiction;
    (match goal with |- context [bind (log _ _) _ ?wa] =>
       destruct (Hnext (emit (Log "error" "backfill_error") wa) eq_refl)
         as (w' & Hrun & Htr & Hdb & Hc)
     end;
     exists w'; split; [exact Hrun |];
     cbn in Htr, Hdb, Hc;
     split; [rewrite Htr, <- !app_assoc; reflexivity | split; assumption]).
Qed.

(** X11. The fallback is asked only when the primary fails: when the
    primary's historical query returns and its events are admitted without
    an error, the run returns having made that one query. *)
Theorem backfill_stops_at_first_answer
    (fuel : nat) (c : string) (w w3 : World D P) last d1 events p1 :
  latest_transfer_ts c (db w) = (Ok last, d1) ->
  backfill_start cfg (clock w) last < backfill_horizon cfg (clock w) ->
  rest_backfill (_primary_idx w) c (backfill_start cfg (clock w) last)
                (backfill_horizon cfg (clock w)) (providers w) = (Ok events, p1) ->
  for_each (_handle_event cfg fuel) events
    (set_providers p1
       (emit (CallRestBackfill (_primary_idx w) c (backfill_start cfg (clock w) last)
                               (backfill_horizon cfg (clock w)))
          (set_db d1 (emit (CallLatestTs c) w))))
  = (Ok tt, w3) ->
  exists w',
    _backfill cfg fuel c w = (Ok tt, w')
    /\ backfill_calls_of (trace w') = backfill_calls_of (trace w) ++ [_primary_idx w]
    /\ db w' = db w3.
Proof.
  intros Hl Hwin H1 Hfeed.
  rewrite (backfill_step cfg fuel c w last d1 Hl).
  destruct (Z.leb_spec (backfill_horizon cfg (clock w)) (backfill_start cfg (clock w) last))
    as [Hbad | _]; [lia |].
  cbn [backfill_providers].
  unfold try_except at 1, bind at 1, provider_rest_backfill at 1.
  cbn [providers set_db emit]. rewrite H1.
  rewrite (bind_step _ _ _ _ _ Hfeed).
  destruct (emits_for_each admission_effect (_handle_event cfg fuel) events
              (emits_handle_event cfg fuel) _ _ _ Hfeed) as (tr & Etr & Ftr).
  cbn in Etr.
  assert (Hcalls : backfill_calls_of (trace w3)
                   = backfill_calls_of (trace w) ++ [_primary_idx w]).
  { rewrite Etr, !backfill_calls_of_app, (backfill_calls_of_admission tr Ftr). cbn.
    now rewrite !app_nil_r. }
  destruct events.
  - exists w3. repeat split; [exact Hcalls].
  - eexists. split; [reflexivity |]. cbn.
    rewrite backfill_calls_of_app, Hcalls. cbn. rewrite app_nil_r. split; reflexivity.
Qed.

End BackfillMore.

Lemma backfill_skips_window_when_both_fail_witness :
  exists w',
    _backfill Sample.cfg 2 "ethereum" down_world = (Ok tt, w')
    /\ db w' = InMemoryDB.init.
Proof.
  destruct (backfill_skips_window_when_both_fail
              (HDB := InMemoryDB_DB) (HPR := DownProviders_Providers)
              Sample.cfg 2 "ethereum" down_world None InMemoryDB.init
              (ProviderError "unavailable") (DownProviders.mk 1)
              (ProviderError "unavailable") (DownProviders.mk 2)
              eq_refl eq_refl eq_refl eq_refl
              ltac:(discriminate) ltac:(discriminate))
    as (w' & Hrun & _ & Hdb & _).
  exists w'. split; [exact Hrun | exact Hdb].
Defined.

Lemma backfill_stops_at_first_answer_witness :
  backfill_calls_of (trace (snd (_backfill Sample.cfg 2 "ethereum" Sample.world)))
  = [0%nat].
Proof.
  set (w2 := set_providers (MockProvider.mk [Sample.ev1; Sample.ev2])
               (emit (CallRestBackfill 0 "ethereum"
                        (backfill_start Sample.cfg Sample.t_now None)
                        (backfill_horizon Sample.cfg Sample.t_now))
                  (set_db InMemoryDB.init (emit (CallLatestTs "ethereum") Sample.world)))).
  destruct (backfill_stops_at_first_answer
              (HDB := InMemoryDB_DB) (HPR := MockProvider_Providers)
              Sample.cfg 2 "ethereum" Sample.world
              (snd (for_each (_handle_event Sample.cfg 2) [Sample.ev1; Sample.ev2] w2))
              None InMemoryDB.init [Sample.ev1; Sample.ev2]
              (MockProvider.mk [Sample.ev1; Sample.ev2])
              eq_refl eq_refl ltac:(vm_compute; reflexivity)
              ltac:(vm_compute; reflexivity))
    as (w' & Hrun & Hcalls & _).
  rewrite Hrun. exact Hcalls.
Defined.

(** ** Rows of the in-memory store under the pipeline *)

Section InMemoryRows.

Context {P : Type} `{HPR : Providers P}.
Variable cfg : Config.

Lemma size_insert_le {A} (k : string) (x : A) (m : gmap string A) :
  (size (<[k := x]> m) <= S (size m))%nat.
Proof.
  rewrite map_size_insert. destruct (m !! k); simpl; lia.
Qed.

Lemma handle_event_rows (fuel : nat) (e : TransferEvent) (w : World InMemoryDB.t P) :
  (size (InMemoryDB.balances (db w)) <= 2 * size (InMemoryDB.transfers (db w)))%nat ->
  let w' := snd (_handle_event cfg fuel e w) in
  (size (InMemoryDB.balances (db w')) <= 2 * size (InMemoryDB.transfers (db w')))%nat.
Proof.
  intros Hrows. rewrite handle_event_unfold.
  destruct (decide _) as [_ | _]; [exact Hrows |].
  unfold bind at 1.
  destruct (_rate_limit cfg fuel _) as [[[] | x] w1] eqn:Hrl;
    apply rate_limit_frame in Hrl; destruct Hrl as (Edb & _); cbn in Edb.
  - rewrite <- Edb in Hrows. cbv beta.
    unfold admission_tail, bind, db_insert_transfer, db_upsert_balance,
      metrics_inc, now, metrics_observe, ret.
    cbn [insert_transfer upsert_balance InMemoryDB_DB].
    unfold InMemoryDB.insert_transfer.
    destruct (InMemoryDB.transfers (db w1) !! InMemoryDB._tkey e) as [e0 |] eqn:Hl.
    + cbn. exact Hrows.
    + cbn.
      rewrite (map_size_insert_None _ _ _ Hl).
      pose proof (size_insert_le (InMemoryDB._bkey (credit_leg e)) (credit_leg e)
                    (<[InMemoryDB._bkey (debit_leg e) := debit_leg e]>
                       (InMemoryDB.balances (db w1)))) as H1.
      pose proof (size_insert_le (InMemoryDB._bkey (debit_leg e)) (debit_leg e)
                    (InMemoryDB.balances (db w1))) as H2.
      lia.
  - cbn. rewrite Edb. exact Hrows.
Qed.

(** X12. Each stored transfer accounts for at most two balance rows: in a
    service that started on the empty in-memory store, after any
    submissions, the balance table holds no more than twice as many rows as
    the transfer table. *)
Theorem balance_rows_bounded (fuel : nat) (es : list TransferEvent)
    (p : P) (t0 : Z) (rs : nat -> Q) :
  let w' := submit_all cfg fuel es (init cfg InMemoryDB.init p t0 rs) in
  (size (InMemoryDB.balances (db w')) <= 2 * size (InMemoryDB.transfers (db w')))%nat.
Proof.
  assert (Hgen : forall w : World InMemoryDB.t P,
             (size (InMemoryDB.balances (db w))
              <= 2 * size (InMemoryDB.transfers (db w)))%nat ->
             (size (InMemoryDB.balances (db (submit_all cfg fuel es w)))
              <= 2 * size (InMemoryDB.transfers (db (submit_all cfg fuel es w))))%nat).
  { induction es as [| e es IH]; intros w Hw; [exact Hw |].
    simpl. apply IH. apply (handle_event_rows fuel e w Hw). }
  apply Hgen. cbn. rewrite !map_size_empty. lia.
Qed.

End InMemoryRows.

(** ** More on the failover controller and the chain task *)

Section ChainTask.

Context {D P : Type} `{HDB : DB D} `{HPR : Providers P}.
Variable cfg : Config.

Lemma failover_except_effects (fo : Failover) (w : World D P) :
  let r := failover_except cfg fo w in
  fst r = Ok (failover_next cfg fo)
  /\ db (snd r) = db w
  /\ _seen_cache (snd r) = _seen_cache w
  /\ _primary_idx (snd r) = _primary_idx w
  /\ exists tr, trace (snd r) = trace w ++ tr /\ Forall (failover_effect cfg) tr.
Proof.
  unfold failover_except, bind, _jitter_delay, uniform, log, sleep, ret, bind.
  destruct (retry_max_attempts cfg <=? fo_attempt fo + 1); cbn;
    (repeat (split; [reflexivity |]));
    (eexists; split; [rewrite <- !app_assoc; reflexivity |]);
    repeat constructor; apply Q.le_min_l.
Qed.

Lemma failover_loop_effects (fuel : nat) (c : string) :
  forall (fo : Failover) (w : World D P),
    let r := failover_loop cfg fuel c fo w in
    match fst r with Ok _ | Raise LoopFuel => True | Raise _ => False end
    /\ db (snd r) = db w
    /\ _seen_cache (snd r) = _seen_cache w
    /\ _primary_idx (snd r) = _primary_idx w
    /\ exists tr, trace (snd r) = trace w ++ tr /\ Forall (failover_effect cfg) tr.
Proof.
  induction fuel as [| fuel IH]; intros fo w.
  - cbn. repeat (split; [reflexivity || exact I |]).
    exists []. split; [now rewrite app_nil_r | constructor].
  - cbv zeta.
    destruct (failover_loop cfg (S fuel) c fo w) as [r w'] eqn:Hrun.
    rewrite failover_loop_step in Hrun.
    unfold bind at 1, log, provider_stream_transfers in Hrun.
    cbn [providers emit] in Hrun.
    destruct (stream_transfers (fo_primary fo) c (providers w)) as [[s | x] p'].
    + injection Hrun as <- <-. cbn.
      repeat (split; [reflexivity || exact I |]).
      eexists. split; [rewrite <- app_assoc; reflexivity |].
      repeat constructor.
    + unfold bind in Hrun.
      match type of Hrun with context [failover_except cfg fo ?w0] =>
        pose proof (failover_except_effects fo w0) as He;
        destruct (failover_except cfg fo w0) as [r2 w2]
      end.
      cbn in He. destruct He as (-> & Hd & Hc & Hi & tr1 & Et1 & Ft1).
      specialize (IH (failover_next cfg fo) w2). cbv zeta in IH.
      rewrite Hrun in IH. cbn [fst snd] in *.
      destruct IH as (Hr & Hd' & Hc' & Hi' & tr2 & Et2 & Ft2).
      split; [exact Hr |].
      split; [now rewrite Hd', Hd |].
      split; [now rewrite Hc', Hc |].
      split; [now rewrite Hi', Hi |].
      exists ([Log "info" "stream_connect"; CallStreamTransfers (fo_primary fo) c]
              ++ tr1 ++ tr2).
      split.
      * rewrite Et2, Et1. cbn. rewrite <- !app_assoc. reflexivity.
      * apply Forall_app. split; [repeat constructor |].
        apply Forall_app. split; assumption.
Qed.

Lemma failover_absorbs_open_errors_aux (fuel : nat) (c : string) (w : World D P) :
  match fst (_stream_with_failover cfg fuel c w) with
  | Ok _ | Raise LoopFuel => True
  | Raise _ => False
  end.
Proof.
  unfold _stream_with_failover, bind, _select_providers. cbn [fst snd].
  exact (proj1 (failover_loop_effects fuel c _ w)).
Qed.

(** X13. The controller lets no error of an opening out: for any
    providers, its loop ends only by handing over a live sequence (or, in the
    model, by using up the bound on its passes). *)
Theorem failover_absorbs_open_errors (fuel : nat) (c : string) (w : World D P) :
  match fst (_stream_with_failover cfg fuel c w) with
  | Ok _ | Raise LoopFuel => True
  | Raise _ => False
  end.
Proof.
  unfold _stream_with_failover, bind, _select_providers. cbn [fst snd].
  exact (proj1 (failover_loop_effects fuel c _ w)).
Qed.

(** X14. While it retries, the controller only logs, opens live sequences
    and sleeps, never longer than [retry_max_seconds] at a time; it calls
    neither the store nor the historical query and leaves the store and the
    cache as they were. *)
Theorem failover_sleeps_are_capped (fuel : nat) (c : string) (w : World D P) :
  let w' := snd (_stream_with_failover cfg fuel c w) in
  db w' = db w
  /\ _seen_cache w' = _seen_cache w
  /\ exists tr, trace w' = trace w ++ tr /\ Forall (failover_effect cfg) tr.
Proof.
  unfold _stream_with_failover, bind, _select_providers. cbn [fst snd].
  destruct (failover_loop_effects fuel c
              (mkFailover (_primary_idx w) (1 - _primary_idx w) 0) w)
    as (_ & Hd & Hc & _ & Htr).
  cbv zeta. repeat split; assumption.
Qed.

Lemma backfill_providers_raises (fuel : nat) (c : string) (start horizon : Z)
    (ps : list (nat * string)) (w : World D P) x :
  fst (backfill_providers cfg fuel c start horizon ps w) = Raise x -> x = LoopFuel.
Proof.
  revert w. induction ps as [| [idx name] ps IH]; intros w; simpl; [discriminate |].
  unfold try_except.
  match goal with |- context [bind ?m ?k w] => destruct (bind m k w) as [[a | x'] w1] end;
    [discriminate |].
  destruct x'; try (unfold bind at 1, log; apply IH).
  cbn. intros H. now injection H as <-.
Qed.

Lemma backfill_raises (fuel : nat) (c : string) (w : World D P) x :
  fst (_backfill cfg fuel c w) = Raise x ->
  x = LoopFuel \/ exists d, latest_transfer_ts c (db w) = (Raise x, d).
Proof.
  destruct (latest_transfer_ts c (db w)) as [[last | x0] d] eqn:Hl.
  - rewrite (backfill_step cfg fuel c w last d Hl).
    destruct (_ <=? _); [discriminate |].
    intros H. left. exact (backfill_providers_raises _ _ _ _ _ _ _ H).
  - unfold _backfill, bind, now, db_latest_transfer_ts. rewrite Hl. cbn.
    intros H. injection H as <-. right. now exists d.
Qed.

Lemma stream_throw_raises (loops : nat) (c : string) (fo : Failover) (w : World D P) :
  fst (_stream_with_failover_throw cfg loops c fo w)
  = Raise (RuntimeError "generator didn't stop after athrow()")
  \/ fst (_stream_with_failover_throw cfg loops c fo w) = Raise LoopFuel.
Proof.
  unfold _stream_with_failover_throw, bind.
  pose proof (failover_except_effects fo w) as He.
  destruct (failover_except cfg fo w) as [r2 w2].
  cbn in He. destruct He as (-> & _).
  pose proof (failover_loop_effects loops c (failover_next cfg fo) w2) as Hl.
  destruct (failover_loop cfg loops c (failover_next cfg fo) w2) as [[sf | x] w3].
  - left. reflexivity.
  - right. cbn in Hl. destruct Hl as (Hx & _). destruct x; try contradiction. reflexivity.
Qed.

(** X15. A chain task does not end with the error of a store write.  When
    [_run_chain] raises, the error is one raised by the store's
    [latest_transfer_ts] at the start of the backfill, or the
    [RuntimeError] of the context manager whose generator went on after an
    error in the body of the [async with] (or the bound of the model). *)
Theorem chain_task_errors (fuel loops : nat) (c : string) (w : World D P) x :
  fst (_run_chain cfg fuel loops c w) = Raise x ->
  x = RuntimeError "generator didn't stop after athrow()"
  \/ (exists d, latest_transfer_ts c (db w) = (Raise x, d))
  \/ x = LoopFuel.
Proof.
  unfold _run_chain, bind at 1.
  pose proof (backfill_raises fuel c w) as Hb.
  destruct (_backfill cfg fuel c w) as [[[] | xb] w1].
  - clear Hb. unfold bind at 1.
    pose proof (failover_absorbs_open_errors_aux loops c w1) as Hs.
    destruct (_stream_with_failover cfg loops c w1) as [[sf | xs] w2].
    + unfold try_except.
      destruct (for_each (_handle_event cfg fuel) (fst sf) w2) as [[[] | xe] w3];
        [discriminate |].
      destruct xe;
        try (intros H;
             destruct (stream_throw_raises loops c (snd sf) w3) as [E | E];
             rewrite E in H; injection H as <-; auto).
      cbn. intros H. injection H as <-. auto.
    + cbn in Hs. destruct xs; try contradiction.
      cbn. intros H. injection H as <-. auto.
  - cbn. intros H. injection H as <-.
    destruct (Hb xb eq_refl) as [-> | Hd]; auto.
Qed.

End ChainTask.

Lemma chain_task_errors_witness :
  RuntimeError "generator didn't stop after athrow()"
  = RuntimeError "generator didn't stop after athrow()"
  \/ (exists d, latest_transfer_ts "ethereum" (db Sample.broken_live_world)
                = (Raise (RuntimeError "generator didn't stop after athrow()"), d))
  \/ RuntimeError "generator didn't stop after athrow()" = LoopFuel.
Proof.
  exact (chain_task_errors (HDB := BrokenDB_DB) (HPR := MockProvider_Providers)
           Sample.cfg 2 2 "ethereum" Sample.broken_live_world
           (RuntimeError "generator didn't stop after athrow()")
           ltac:(vm_compute; reflexivity)).
Defined.

(** ** The primary selection *)

Section PrimarySelection.

Context {D P : Type} `{HDB : DB D} `{HPR : Providers P}.
Variable cfg : Config.

Lemma preserves_for_each {A X} (f : World D P -> X) (g : A -> @M D P unit) (l : list A) :
  (forall a, preserves f (g a)) -> preserves f (for_each g l).
Proof.
  intros Hg. induction l as [| a l IH]; simpl.
  - apply preserves_ret.
  - apply preserves_bind; [apply Hg | intros _; exact IH].
Qed.

Lemma untouched_primary_idx : untouched (@_primary_idx D P).
Proof. split; reflexivity. Qed.

Lemma handle_event_keeps_primary (fuel : nat) (e : TransferEvent) :
  preserves _primary_idx (@_handle_event D P _ cfg fuel e).
Proof.
  intros w r w' H. rewrite handle_event_unfold in H.
  destruct (decide _) as [_ | _]; [now injection H as _ <- |].
  assert (Hp : preserves _primary_idx
                 (bind (_rate_limit cfg fuel) (fun _ => @admission_tail D P _ e))).
  { apply preserves_bind.
    - intros w0 r0 w0' H0. now apply rate_limit_frame in H0.
    - intros _. apply admission_tail_untouched, untouched_primary_idx. }
  exact (Hp _ _ _ H).
Qed.

Lemma preserves_log_primary level msg : preserves _primary_idx (@log D P level msg).
Proof. intros w r w' H. now injection H as _ <-. Qed.

Lemma backfill_providers_keeps_primary fuel c start horizon ps :
  preserves _primary_idx (@backfill_providers D P _ _ cfg fuel c start horizon ps).
Proof.
  induction ps as [| [idx name] ps IH]; simpl; [apply preserves_ret |].
  apply preserves_try.
  - apply preserves_bind.
    + intros w r w' H. unfold provider_rest_backfill in H.
      destruct (rest_backfill idx c start horizon (providers w)).
      now injection H as _ <-.
    + intros events. apply preserves_bind.
      * apply preserves_for_each. intros e. apply handle_event_keeps_primary.
      * intros _. destruct events; [apply preserves_ret | apply preserves_log_primary].
  - intros _. apply preserves_bind; [apply preserves_log_primary | intros _; exact IH].
Qed.

Lemma backfill_keeps_primary fuel c : preserves _primary_idx (@_backfill D P _ _ cfg fuel c).
Proof.
  unfold _backfill.
  apply preserves_bind; [intros w r w' H; now injection H as _ <- | intros t].
  apply preserves_bind.
  - intros w r w' H. unfold db_latest_transfer_ts in H.
    destruct (latest_transfer_ts c (db w)). now injection H as _ <-.
  - intros last. destruct (_ <=? _); [apply preserves_ret |].
    apply preserves_bind; [intros w r w' H; now injection H as _ <- | intros pf].
    apply backfill_providers_keeps_primary.
Qed.

Lemma failover_loop_keeps_primary loops c fo :
  preserves _primary_idx (@failover_loop D P _ cfg loops c fo).
Proof.
  intros w r w' H.
  pose proof (failover_loop_effects cfg loops c fo w) as He.
  rewrite H in He. cbn in He. now destruct He as (_ & _ & _ & Hi & _).
Qed.

Lemma failover_except_keeps_primary fo :
  preserves _primary_idx (@failover_except D P cfg fo).
Proof.
  intros w r w' H.
  pose proof (failover_except_effects cfg fo w) as He.
  rewrite H in He. cbn in He. now destruct He as (_ & _ & _ & Hi & _).
Qed.

(** X16. The swap of the failover controller is local to one run of its
    loop: nothing a chain task does -- backfill, admissions, retries, swaps
    or the handling of an error -- changes which provider the service
    holds as primary, so every later backfill and every new streaming attempt
    starts from the configured primary again. *)
Theorem primary_selection_is_never_changed (fuel loops : nat) (c : string) (w : World D P) :
  _primary_idx (snd (_run_chain cfg fuel loops c w)) = _primary_idx w.
Proof.
  destruct (_run_chain cfg fuel loops c w) as [r w'] eqn:H. simpl.
  revert H. revert w r w'.
  change (preserves _primary_idx (@_run_chain D P _ _ cfg fuel loops c)).
  unfold _run_chain.
  apply preserves_bind; [apply backfill_keeps_primary | intros _].
  apply preserves_bind.
  - unfold _stream_with_failover.
    apply preserves_bind; [intros w r w' H; now injection H as _ <- | intros pf].
    apply failover_loop_keeps_primary.
  - intros sf. apply preserves_try.
    + apply preserves_for_each. intros e. apply handle_event_keeps_primary.
    + intros x. unfold _stream_with_failover_throw.
      apply preserves_bind; [apply failover_except_keeps_primary | intros fo'].
      apply preserves_bind; [apply failover_loop_keeps_primary | intros _].
      apply preserves_raise.
Qed.

End PrimarySelection.

(** ** The failover controller on a live sequence that fails *)

Section StreamFailure.

Context {D P : Type} `{HDB : DB D} `{HPR : Providers P}.
Variable cfg : Config.

(** An error thrown into the controller at its [yield] gets one pass of the
    [except] branch: when the call that creates the next live sequence
    returns, as it does for a generator, that sequence is opened and the
    context manager raises [RuntimeError].  The provider asked is the one
    the [except] branch left as primary: the same as before unless the
    attempt counter reached [retry_max_attempts] at this first failure. *)
Lemma stream_failure_is_terminal (loops : nat) (c : string) (fo : Failover)
    (w : World D P) s p' :
  stream_transfers (fo_primary (failover_next cfg fo)) c (providers w) = (Ok s, p') ->
  exists w',
    _stream_with_failover_throw cfg (S loops) c fo w
    = (Raise (RuntimeError "generator didn't stop after athrow()"), w')
    /\ stream_opens_of (trace w')
       = stream_opens_of (trace w) ++ [fo_primary (failover_next cfg fo)]
    /\ (fo_attempt fo + 1 < retry_max_attempts cfg ->
        fo_primary (failover_next cfg fo) = fo_primary fo).
Proof.
  intros Hcall. unfold _stream_with_failover_throw.
  destruct (failover_except_runs cfg fo w) as (w2 & Hex & Hp & _ & Hopens & _).
  rewrite (bind_step _ _ _ _ _ Hex).
  unfold bind at 1. rewrite failover_loop_step.
  unfold bind at 1, log, provider_stream_transfers.
  cbn [providers emit]. rewrite Hp, Hcall.
  eexists. split; [reflexivity |]. split.
  - cbn. rewrite !stream_opens_of_app, Hopens. cbn. now rewrite app_nil_r.
  - intros Hlt. unfold failover_next.
    destruct (Z.leb_spec (retry_max_attempts cfg) (fo_attempt fo + 1)); [lia | reflexivity].
Qed.

End StreamFailure.

(** C6. On the code the claim fails.  The providers' [stream_transfers] are
    generator functions, so the controller's first call returns and a failed
    opening shows at the first item, in the body of the [async with].  With
    [retry_max_attempts = 3] and room for five passes of the loop, one such
    failure is thrown into the controller, whose [except] branch sleeps for
    one backoff delay and opens the same primary again; the context manager
    then raises [RuntimeError] and the chain task ends.  The fallback is
    never asked, the attempt counter never reaches three, and the failure is
    terminal. *)
Theorem stream_open_failure_ends_chain_task :
  let r := _run_chain_stream_error Sample.cfg 2 5 "ethereum"
             (ProviderError "connection refused") quiet_world in
  retry_max_attempts Sample.cfg = 3
  /\ fst r = Raise (RuntimeError "generator didn't stop after athrow()")
  /\ stream_opens_of (trace (snd r)) = [0; 0]%nat
  /\ trace (snd r) =
     [CallLatestTs "ethereum";
      CallRestBackfill 0 "ethereum" (Sample.t_now - 24 * 3600000000)
                       (Sample.t_now - 5 * 1000000);
      Log "info" "stream_connect";
      CallStreamTransfers 0 "ethereum";
      Log "error" "stream_error";
      Sleep (jitter_delay_value (1 # 100) 0 (5 # 100) ((1 # 100) * (1 # 2)));
      Log "info" "stream_connect";
      CallStreamTransfers 0 "ethereum"].
Proof.
  vm_compute. repeat split; reflexivity.
Qed.
